(** * CoffeeNow: a shallow embedding of [coffee_now.py]

    The Python program pairs employees for coffee chats.  This file embeds
    its two classes, [User] and [Matcher], as Rocq functions and proves
    properties of the greedy matching loop.

    Modelling conventions.
    - Python [str] values are [string]s (byte strings); [sorted] on a list of
      [str] is a sort by the lexicographic order on code points, which is
      stdpp's [String.le].  [str.lower] is modelled on the ASCII letters.
    - A Python [set] of strings is a [gset string]; a [dict] keyed by strings
      is a [gmap string _]; [dict.get] is [dict_get].
    - A Python exception is a value [Raise e] of the type [result].
    - The three input files are given by their parsed contents; the output
      directory is a finite map from file names to the rows written. *)

From stdpp Require Import base option list sorting gmap sets strings.
From Stdlib Require Import Ascii ZArith.
From Stdlib Require String.

(** ** Exceptions *)

Inductive exn : Set :=
  | IndexError
  | AttributeError.

Inductive result (A : Type) : Type :=
  | Ok (a : A)
  | Raise (e : exn).

Arguments Ok {A} a.
Arguments Raise {A} e.

Global Instance result_ret : MRet result := fun A a => Ok a.
Global Instance result_bind : MBind result := fun A B f m =>
  match m with
  | Ok a => f a
  | Raise e => Raise e
  end.

(** [l[i]] on a Python list: [IndexError] when [i] is out of range. *)
Definition index {A} (l : list A) (i : nat) : result A :=
  match l !! i with
  | Some x => Ok x
  | None => Raise IndexError
  end.

(** ** Strings *)

(** [str.lower], on ASCII letters. *)
Definition lower_ascii (c : ascii) : ascii :=
  let n := nat_of_ascii c in
  if (65 <=? n)%nat && (n <=? 90)%nat then ascii_of_nat (n + 32) else c.

Fixpoint lower (s : string) : string :=
  match s with
  | EmptyString => EmptyString
  | String c s' => String (lower_ascii c) (lower s')
  end.

(** [sub in s] on strings. *)
Fixpoint contains (sub s : string) : bool :=
  String.prefix sub s ||
  match s with
  | EmptyString => false
  | String _ s' => contains sub s'
  end.

(** [sorted] on a list of strings. *)
Definition sorted (l : list string) : list string := merge_sort String.le l.

(** A department id as read from the roster: [None] is JSON [null]. *)
Definition department_id : Set := option Z.

(** [d.get(k)] with the default [None], and [d.get(k, [])]. *)
Definition dict_get (d : gmap string (option Z)) (k : string) : option Z :=
  default None (d !! k).

Definition dict_get_list (d : gmap string (list string)) (k : string) : list string :=
  default [] (d !! k).

(** ** class User *)

Module User.

Record t : Type := New {
  email : string;
  department_id : option Z;
  historical_matches : list string
}.

(** The body of the [for] loop followed by [sorted], for a given iteration
    order of the set [set(available_emails) - set(previous_matches)]. *)
Definition possible_matches_from (iteration : list string) (self : t)
    (user_departments : gmap string (option Z)) : list string :=
  sorted (filter (fun possible_match =>
                    dict_get user_departments possible_match ≠ department_id self)
                 iteration).

Definition get_possible_matches (self : t) (available_emails : gset string)
    (user_departments : gmap string (option Z)) : list string :=
  let previous_matches := email self :: historical_matches self in
  possible_matches_from
    (elements (available_emails ∖ list_to_set previous_matches))
    self user_departments.

End User.

(** ** class Matcher *)

Module Matcher.

(** A row of the requests CSV file: the two columns the program reads. *)
Record request : Type := Request {
  match_me_up : string;      (* 'Match me up for a chat!' *)
  email_address : string     (* 'Email Address' *)
}.

(** A cell of the historical matches spreadsheet: text, or a value of
    another type (number, date, ...) given by its [str]. *)
Inductive cell : Type :=
  | Text (s : string)
  | NonText (repr : string).

Definition str (item : cell) : string :=
  match item with
  | Text s => s
  | NonText r => r
  end.

(** [item.lower()]: only [str] has the method. *)
Definition cell_lower (item : cell) : result string :=
  match item with
  | Text s => Ok (lower s)
  | NonText _ => Raise AttributeError
  end.

(** The parsed contents of the three input files. *)
Record t : Type := New {
  requests_file : list request;
  employees_file : list (string * option Z);   (* 'email', 'department_id' *)
  matches_file : list (string * list (list cell))  (* tab, rows *)
}.

(** *** [email_search.match]

    The pattern is [([\w\.\_]*@chownow.com)], matched at the start of the
    string.  The starred class does not contain [@], so the match succeeds
    exactly when the longest prefix of class characters is followed by
    [@chownow], one character other than a newline, and [com].  [\w] is
    taken on ASCII: letters, digits and the underscore. *)

Definition is_word (c : ascii) : bool :=
  let n := nat_of_ascii c in
  ((48 <=? n)%nat && (n <=? 57)%nat) ||
  ((65 <=? n)%nat && (n <=? 90)%nat) ||
  ((97 <=? n)%nat && (n <=? 122)%nat) ||
  (n =? 95)%nat.

Definition is_local (c : ascii) : bool :=
  is_word c || (nat_of_ascii c =? 46)%nat.

Fixpoint skip_local (s : string) : string :=
  match s with
  | EmptyString => EmptyString
  | String c s' => if is_local c then skip_local s' else s
  end.

Fixpoint strip_prefix (p s : string) : option string :=
  match p, s with
  | EmptyString, _ => Some s
  | String a p', String b s' => if Ascii.eqb a b then strip_prefix p' s' else None
  | String _ _, EmptyString => None
  end.

Definition email_search_match (s : string) : bool :=
  match strip_prefix "@chownow" (skip_local s) with
  | Some (String c rest) =>
      negb (nat_of_ascii c =? 10)%nat && String.prefix "com" rest
  | _ => false
  end.

(** *** [historical_matches] *)

(** [for loc, item in enumerate(row)] collecting the matching positions. *)
Fixpoint email_locations_from (loc : nat) (row : list cell) : list nat :=
  match row with
  | [] => []
  | item :: row' =>
      if email_search_match (str item)
      then loc :: email_locations_from (S loc) row'
      else email_locations_from (S loc) row'
  end.

(** [d.setdefault(k1, [])] then [d[k1].append(k2)]. *)
Definition add_link (d : gmap string (list string)) (k1 k2 : string)
    : gmap string (list string) :=
  <[k1 := dict_get_list d k1 ++ [k2]]> d.

(** The body of [for row in data[1:]]. *)
Definition history_row (email_locations : list nat)
    (d : gmap string (list string)) (row : list cell)
    : result (gmap string (list string)) :=
  match row with
  | [] => Ok d
  | _ :: _ =>
      loc1 ← index email_locations 0;
      item1 ← index row loc1;
      email_key1 ← cell_lower item1;
      loc2 ← index email_locations 1;
      item2 ← index row loc2;
      email_key2 ← cell_lower item2;
      Ok (add_link d email_key1 email_key2)
  end.

Fixpoint history_rows (email_locations : list nat)
    (d : gmap string (list string)) (rows : list (list cell))
    : result (gmap string (list string)) :=
  match rows with
  | [] => Ok d
  | row :: rows' =>
      d' ← history_row email_locations d row;
      history_rows email_locations d' rows'
  end.

(** The body of [for tab, data in matches_dict.items()]. *)
Definition history_tab (d : gmap string (list string))
    (data : list (list cell)) : result (gmap string (list string)) :=
  row1 ← index data 1;
  history_rows (email_locations_from 0 row1) d (drop 1 data).

Fixpoint history_tabs (d : gmap string (list string))
    (tabs : list (string * list (list cell)))
    : result (gmap string (list string)) :=
  match tabs with
  | [] => Ok d
  | (_, data) :: tabs' =>
      d' ← history_tab d data;
      history_tabs d' tabs'
  end.

Definition historical_matches (self : t) : result (gmap string (list string)) :=
  history_tabs ∅ (matches_file self).

(** *** [user_departments] *)

Fixpoint departments_from (d : gmap string (option Z))
    (employees : list (string * option Z)) : gmap string (option Z) :=
  match employees with
  | [] => d
  | (e, dep) :: employees' =>
      let email := lower e in
      if decide (email = "") then departments_from d employees'
      else departments_from (<[email := dep]> d) employees'
  end.

Definition user_departments (self : t) : gmap string (option Z) :=
  departments_from ∅ (employees_file self).

(** *** [available_emails] *)

Definition opted_in (row : request) : bool :=
  contains "yes" (lower (match_me_up row)).

Definition available_emails_of (requests : list request) : list string :=
  sorted (map email_address (filter (fun row => opted_in row = true) requests)).

Definition available_emails (self : t) : list string :=
  available_emails_of (requests_file self).

(** *** [users] *)

Definition users_of (available_emails : list string)
    (historical_matches : gmap string (list string))
    (user_departments : gmap string (option Z)) : list User.t :=
  map (fun email =>
         User.New email (dict_get user_departments email)
                  (dict_get_list historical_matches email))
      available_emails.

(** The history file is first read inside the loop, hence only when there
    is at least one available email. *)
Definition users (self : t) : result (list User.t) :=
  match available_emails self with
  | [] => Ok []
  | _ :: _ =>
      h ← historical_matches self;
      Ok (users_of (available_emails self) h (user_departments self))
  end.

(** *** [matches] *)

(** The local variables of [matches]. *)
Record state : Type := State {
  _matches : list (string * string);   (* 'Email Address', 'Meet your Match' *)
  remaining : gset string;             (* the local [available_emails] *)
  already_matched : list string
}.

(** The body of [for user in self.users]. *)
Definition match_user (user_departments : gmap string (option Z))
    (st : state) (user : User.t) : result state :=
  if decide (User.email user ∈ (list_to_set (already_matched st) : gset string))
  then Ok st
  else
    match User.get_possible_matches user (remaining st) user_departments with
    | [] => Raise IndexError
    | last_match :: _ =>
        Ok {| _matches := _matches st ++ [(User.email user, last_match)];
              remaining := remaining st ∖ list_to_set [last_match; User.email user];
              already_matched := already_matched st ++ [last_match] |}
    end.

Fixpoint match_users (user_departments : gmap string (option Z))
    (st : state) (users : list User.t) : result state :=
  match users with
  | [] => Ok st
  | user :: users' =>
      st' ← match_user user_departments st user;
      match_users user_departments st' users'
  end.

Definition initial (available_emails : list string) : state :=
  {| _matches := [];
     remaining := list_to_set available_emails;
     already_matched := [] |}.

(** [matches] on the values of the three cached properties it reads. *)
Definition matches_of (available_emails : list string)
    (historical_matches : gmap string (list string))
    (user_departments : gmap string (option Z))
    : result (list (string * string)) :=
  st ← match_users user_departments (initial available_emails)
         (users_of available_emails historical_matches user_departments);
  Ok (_matches st).

Definition matches (self : t) : result (list (string * string)) :=
  us ← users self;
  st ← match_users (user_departments self) (initial (available_emails self)) us;
  Ok (_matches st).

(** *** [export_matches]

    The output directory maps a file name to the rows written to it; [date]
    is [datetime.now().strftime('%Y%m%d')]. *)

Definition csv_file_name (date : string) : string :=
  "CoffeeNow_" +:+ date +:+ ".csv".

Definition fieldnames : list string := ["Email Address"; "Meet your Match"].

Definition writerow (m : string * string) : list string := [m.1; m.2].

Definition export_matches (self : t) (date : string)
    (files : gmap string (list (list string)))
    : gmap string (list (list string)) * result unit :=
  (* open(csv_file_name, 'w') creates or truncates the file *)
  let files := <[csv_file_name date := []]> files in
  match matches self with
  | Raise e => (files, Raise e)
  | Ok [] => (files, Raise IndexError)          (* self.matches[0] *)
  | Ok (m :: ms) =>
      (<[csv_file_name date := fieldnames :: map writerow (m :: ms)]> files,
       Ok tt)
  end.

End Matcher.

(** * Vocabulary of the properties, and scenarios *)

(** [chosen d st u m]: in the state [st] the loop body does not skip [u]
    and takes [m], the first element of the resolver's result. *)
Definition chosen (d : gmap string (option Z)) (st : Matcher.state)
    (u : User.t) (m : string) : Prop :=
  (User.email u ∉ Matcher.already_matched st) ∧
  ∃ tl, User.get_possible_matches u (Matcher.remaining st) d = m :: tl.

Definition after_match (st : Matcher.state) (u : User.t) (m : string)
    : Matcher.state :=
  {| Matcher._matches := Matcher._matches st ++ [(User.email u, m)];
     Matcher.remaining := Matcher.remaining st ∖ list_to_set [m; User.email u];
     Matcher.already_matched := Matcher.already_matched st ++ [m] |}.

(** The loop invariant: the remaining pool holds only emails of users not
    yet visited, and no email that was already taken as a match. *)
Definition pool_inv (post : list User.t) (st : Matcher.state) : Prop :=
  (∀ e, e ∈ Matcher.remaining st → e ∈ map User.email post) ∧
  (∀ e, e ∈ Matcher.already_matched st → e ∉ Matcher.remaining st).

(** A row of the requests file that opts in. *)
Definition yes (e : string) : Matcher.request := Matcher.Request "Yes" e.

(** Two participants, an empty roster, no history. *)
Definition scenario_b_requests : list Matcher.request :=
  [yes "a@x.com"; yes "b@x.com"].

(** Four participants in four departments; a@x.com has met b@x.com. *)
Definition scenario_c_requests : list Matcher.request :=
  [yes "a@x.com"; yes "b@x.com"; yes "c@x.com"; yes "d@x.com"].

Definition scenario_c_departments : gmap string (option Z) :=
  list_to_map [("a@x.com", Some 1%Z); ("b@x.com", Some 2%Z);
               ("c@x.com", Some 3%Z); ("d@x.com", Some 4%Z)].

Definition scenario_c_history : gmap string (list string) :=
  {[ "a@x.com" := ["b@x.com"] ]}.

(** Three participants in three departments, no history. *)
Definition three_requests : list Matcher.request :=
  [yes "a@x.com"; yes "b@x.com"; yes "c@x.com"].

(** The pairs of neighbours of a list: [(l0, l1); (l2, l3); ...]. *)
Fixpoint pair_up (l : list string) : list (string * string) :=
  match l with
  | a :: b :: l' => (a, b) :: pair_up l'
  | _ => []
  end.

(** No history constraint: nobody in the pool has met anybody in the pool.
    No department constraint: two different members of the pool never have
    equal department ids. *)
Definition unconstrained (l : list string) (h : gmap string (list string))
    (d : gmap string (option Z)) : Prop :=
  (∀ e x, e ∈ l → x ∈ dict_get_list h e → x ∉ l) ∧
  (∀ e1 e2, e1 ∈ l → e2 ∈ l → e1 ≠ e2 → dict_get d e1 ≠ dict_get d e2).

(** The claim of the specification for a pool without constraints: the run
    succeeds with [N / 2] pairs and no email is in two pairs. *)
Definition all_but_one_paired (requests : list Matcher.request)
    (h : gmap string (list string)) (d : gmap string (option Z)) : Prop :=
  ∃ pairs,
    Matcher.matches_of (Matcher.available_emails_of requests) h d = Ok pairs ∧
    length pairs = length (Matcher.available_emails_of requests) / 2 ∧
    NoDup (map fst pairs ++ map snd pairs).

Ltac elem_of_cases H :=
  repeat (apply elem_of_cons in H as [->|H]); [..|by apply not_elem_of_nil in H].

(** Scenario B as the contents of the three input files. *)
Definition scenario_b_files : Matcher.t :=
  Matcher.New scenario_b_requests [] [].

(** A Python [set] is iterated in an order the language does not fix.
    [resolves] and [runs] describe the resolver and the loop when every
    iteration over a set may take any order. *)
Inductive resolves (u : User.t) (available_emails : gset string)
    (d : gmap string (option Z)) : list string → Prop :=
  | resolves_iteration (iteration : list string) :
      iteration ≡ₚ elements (available_emails ∖
                    list_to_set (User.email u :: User.historical_matches u)) →
      resolves u available_emails d (User.possible_matches_from iteration u d).

Inductive runs (d : gmap string (option Z))
    : Matcher.state → list User.t → result Matcher.state → Prop :=
  | runs_end st :
      runs d st [] (Ok st)
  | runs_skip st u us r :
      User.email u ∈ Matcher.already_matched st →
      runs d st us r →
      runs d st (u :: us) r
  | runs_raise st u us :
      (User.email u ∉ Matcher.already_matched st) →
      resolves u (Matcher.remaining st) d [] →
      runs d st (u :: us) (Raise IndexError)
  | runs_match st u us m tl r :
      (User.email u ∉ Matcher.already_matched st) →
      resolves u (Matcher.remaining st) d (m :: tl) →
      runs d (after_match st u m) us r →
      runs d st (u :: us) r.

Definition matches_run (available_emails : list string)
    (h : gmap string (list string)) (d : gmap string (option Z))
    (out : result (list (string * string))) : Prop :=
  ∃ r, runs d (Matcher.initial available_emails)
              (Matcher.users_of available_emails h d) r ∧
       out = r ≫= fun st => Ok (Matcher._matches st).

(** A history file with one sheet whose rows have a single email-shaped
    column. *)
Definition one_email_column : Matcher.t :=
  Matcher.New [yes "alice@chownow.com"] []
    [("March", [[Matcher.Text "Name"; Matcher.Text "Match"];
                [Matcher.Text "Alice"; Matcher.Text "bob@chownow.com"]])].

(** A sheet of the history file holding the rows of an output file:
    every field is a text cell. *)
Definition history_sheet (rows : list (list string)) : list (list Matcher.cell) :=
  map (map Matcher.Text) rows.

(** A first round without history, where Bob signed up with a capital
    letter, and a second round over the same participants whose history
    file has one sheet: the rows of the first round's output file. *)
Definition round_one_files : Matcher.t :=
  Matcher.New
    [yes "alice@chownow.com"; yes "Bob@chownow.com"]
    [("alice@chownow.com", Some 1%Z); ("bob@chownow.com", Some 2%Z)]
    [].

Definition round_one_output : list (list string) :=
  Matcher.fieldnames
  :: map Matcher.writerow [("Bob@chownow.com", "alice@chownow.com")].

Definition round_two_files : Matcher.t :=
  Matcher.New
    (Matcher.requests_file round_one_files)
    (Matcher.employees_file round_one_files)
    [("Round 1", history_sheet round_one_output)].

(** Bob signed up with a capital letter; the history file records that
    bob@chownow.com has met alice@chownow.com. *)
Definition mixed_case_files : Matcher.t :=
  Matcher.New
    [yes "alice@chownow.com"; yes "Bob@chownow.com"]
    [("alice@chownow.com", Some 1%Z); ("bob@chownow.com", Some 2%Z)]
    [("March", [[Matcher.Text "Email 1"; Matcher.Text "Email 2"];
                [Matcher.Text "bob@chownow.com"; Matcher.Text "alice@chownow.com"]])].

(** The strict order on emails. *)
Definition string_lt (x y : string) : Prop := (x ?= y)%string = Lt.

(** What the loop keeps true of the pairs made so far, [visited] being the
    emails of the users already visited: the matches are the second
    components, the requesters were visited, nobody in a pair is still in
    the pool, and nobody is in two pairs. *)
Definition pairs_inv (visited : list string) (st : Matcher.state) : Prop :=
  Matcher.already_matched st = map snd (Matcher._matches st) ∧
  (∀ e, e ∈ map fst (Matcher._matches st) → e ∈ visited) ∧
  (∀ e, e ∈ map fst (Matcher._matches st) ++ map snd (Matcher._matches st) →
        e ∉ Matcher.remaining st) ∧
  NoDup (map fst (Matcher._matches st) ++ map snd (Matcher._matches st)).

(** Strings made of characters of the class [[\w\.\_]] only. *)
Fixpoint all_local (s : string) : bool :=
  match s with
  | EmptyString => true
  | String c s' => Matcher.is_local c && all_local s'
  end.

(** The links a sheet holds, read as the loader reads it: [l0] and [l1]
    are the two located columns, empty rows are skipped, and every other
    row has a text cell in both columns. *)
Inductive sheet_links (l0 l1 : nat)
    : list (list Matcher.cell) → list (string * string) → Prop :=
  | sheet_links_nil :
      sheet_links l0 l1 [] []
  | sheet_links_empty rows pairs :
      sheet_links l0 l1 rows pairs →
      sheet_links l0 l1 ([] :: rows) pairs
  | sheet_links_row row rows a b pairs :
      row !! l0 = Some (Matcher.Text a) →
      row !! l1 = Some (Matcher.Text b) →
      sheet_links l0 l1 rows pairs →
      sheet_links l0 l1 (row :: rows) ((a, b) :: pairs).

(** The history map after the links are recorded in it, lower-cased. *)
Definition record_lowered (h : gmap string (list string))
    (pairs : list (string * string)) : gmap string (list string) :=
  foldl (fun h' p => Matcher.add_link h' (lower p.1) (lower p.2)) h pairs.

(** A history map whose keys and partners are all in lower case. *)
Definition lowered (h : gmap string (list string)) : Prop :=
  ∀ k l, h !! k = Some l → lower k = k ∧ ∀ x, x ∈ l → lower x = x.

(** * Properties *)

(** ** The order on strings and [sorted] *)

Lemma sorted_perm (l : list string) : sorted l ≡ₚ l.
Proof. apply merge_sort_Permutation. Qed.

Lemma sorted_strongly (l : list string) : StronglySorted String.le (sorted l).
Proof. apply StronglySorted_merge_sort; apply _. Qed.

Lemma elem_of_sorted (l : list string) (x : string) : x ∈ sorted l ↔ x ∈ l.
Proof. by rewrite sorted_perm. Qed.

(** The result of [sorted] depends on the elements only, not on their order. *)
Lemma sorted_order_irrelevant (l1 l2 : list string) :
  l1 ≡ₚ l2 → sorted l1 = sorted l2.
Proof.
  intros Hp. apply (StronglySorted_unique String.le); auto using sorted_strongly.
  by rewrite !sorted_perm.
Qed.

Lemma sorted_head_least (l : list string) (x y : string) (tl : list string) :
  sorted l = x :: tl → y ∈ l → String.le x y.
Proof.
  intros Hs Hy. pose proof (sorted_strongly l) as Hst.
  apply elem_of_sorted in Hy. rewrite Hs in Hst, Hy.
  apply StronglySorted_inv in Hst as [_ Hall].
  apply elem_of_cons in Hy as [->|Hy]; [done|].
  rewrite Forall_forall in Hall. by apply Hall.
Qed.

Lemma sorted_nil_inv (l : list string) : sorted l = [] → l = [].
Proof.
  intros Hs. apply Permutation_nil. rewrite <- Hs. by rewrite sorted_perm.
Qed.

Lemma sorted_of_strongly_sorted (l : list string) :
  StronglySorted String.le l → sorted l = l.
Proof.
  intros Hl. apply (StronglySorted_unique String.le); auto using sorted_strongly, sorted_perm.
Qed.

Lemma string_le_neq_lt (x y : string) :
  String.le x y → x ≠ y → (x ?= y)%string = Lt.
Proof.
  unfold String.le, String.leb. intros Hle Hne.
  destruct (x ?= y)%string eqn:Hc; [|done|done].
  by apply String.compare_eq_iff in Hc.
Qed.

(** ** The candidate resolver *)

Section resolver.
Context (self : User.t) (available_emails : gset string)
        (user_departments : gmap string (option Z)).

Lemma elem_of_get_possible_matches (x : string) :
  x ∈ User.get_possible_matches self available_emails user_departments ↔
  x ∈ available_emails ∧ x ≠ User.email self ∧
  (x ∉ User.historical_matches self) ∧
  dict_get user_departments x ≠ User.department_id self.
Proof.
  unfold User.get_possible_matches, User.possible_matches_from.
  rewrite elem_of_sorted, list_elem_of_filter, elem_of_elements,
    elem_of_difference, elem_of_list_to_set, elem_of_cons.
  tauto.
Qed.

Lemma get_possible_matches_head (m : string) (tl : list string) :
  User.get_possible_matches self available_emails user_departments = m :: tl →
  m ∈ User.get_possible_matches self available_emails user_departments ∧
  ∀ c, c ∈ User.get_possible_matches self available_emails user_departments →
       String.le m c.
Proof.
  intros Hg. split; [rewrite Hg; by left|].
  intros c Hc. unfold User.get_possible_matches, User.possible_matches_from in *.
  eapply sorted_head_least; [done|]. by apply elem_of_sorted.
Qed.

Lemma get_possible_matches_nil :
  User.get_possible_matches self available_emails user_departments = [] ↔
  ∀ x, x ∈ available_emails →
       x ∈ User.email self :: User.historical_matches self ∨
       dict_get user_departments x = User.department_id self.
Proof.
  split.
  - intros Hnil x Hx.
    destruct (decide (x ∈ User.email self :: User.historical_matches self)) as [|Hn];
      [by left|right].
    destruct (decide (dict_get user_departments x = User.department_id self)) as [|Hd];
      [done|exfalso].
    assert (x ∈ User.get_possible_matches self available_emails user_departments) as Hin.
    { apply elem_of_get_possible_matches. rewrite elem_of_cons in Hn. tauto. }
    rewrite Hnil in Hin. by apply not_elem_of_nil in Hin.
  - intros Hall.
    destruct (User.get_possible_matches self available_emails user_departments)
      as [|m tl] eqn:Hg; [done|exfalso].
    assert (m ∈ User.get_possible_matches self available_emails user_departments) as Hin
      by (rewrite Hg; by left).
    apply elem_of_get_possible_matches in Hin as (Ha & Hne & Hh & Hd).
    destruct (Hall m Ha) as [Hp|Hp]; [|done].
    apply elem_of_cons in Hp as [?|?]; done.
Qed.

(** Whatever order the set difference is iterated in, the resolver
    returns the same list. *)
Lemma possible_matches_from_order (iteration : list string) :
  iteration ≡ₚ elements (available_emails ∖
                list_to_set (User.email self :: User.historical_matches self)) →
  User.possible_matches_from iteration self user_departments =
  User.get_possible_matches self available_emails user_departments.
Proof.
  intros Hp. unfold User.get_possible_matches, User.possible_matches_from.
  apply sorted_order_irrelevant. by rewrite Hp.
Qed.
End resolver.

(** ** The matching loop *)

Lemma result_bind_Ok {A B} (f : A → result B) (m : result A) (b : B) :
  m ≫= f = Ok b ↔ ∃ a, m = Ok a ∧ f a = Ok b.
Proof.
  destruct m as [a|e]; simpl.
  - split; [eauto|]. by intros (a' & [= ->] & ?).
  - split; [done|]. by intros (a' & ? & ?).
Qed.

Lemma email_users_of (es : list string) (h : gmap string (list string))
    (d : gmap string (option Z)) :
  map User.email (Matcher.users_of es h d) = es.
Proof.
  unfold Matcher.users_of. rewrite map_map. simpl. apply map_id.
Qed.

Lemma elem_of_users_of (es : list string) (h : gmap string (list string))
    (d : gmap string (option Z)) (u : User.t) :
  u ∈ Matcher.users_of es h d →
  User.department_id u = dict_get d (User.email u) ∧
  User.historical_matches u = dict_get_list h (User.email u).
Proof.
  unfold Matcher.users_of. rewrite list_elem_of_In, in_map_iff.
  by intros (e & <- & _).
Qed.

Section loop.
Context (d : gmap string (option Z)).

Lemma match_user_skip (st : Matcher.state) (u : User.t) :
  User.email u ∈ Matcher.already_matched st → Matcher.match_user d st u = Ok st.
Proof.
  intros Hin. unfold Matcher.match_user.
  rewrite decide_True; [done|]. by apply elem_of_list_to_set.
Qed.

Lemma match_user_chosen (st : Matcher.state) (u : User.t) (m : string) :
  chosen d st u m → Matcher.match_user d st u = Ok (after_match st u m).
Proof.
  intros [Hni [tl Hg]]. unfold Matcher.match_user.
  rewrite decide_False; [|by rewrite elem_of_list_to_set].
  by rewrite Hg.
Qed.

Lemma match_user_exhausted (st : Matcher.state) (u : User.t) :
  User.email u ∉ Matcher.already_matched st →
  User.get_possible_matches u (Matcher.remaining st) d = [] →
  Matcher.match_user d st u = Raise IndexError.
Proof.
  intros Hni Hg. unfold Matcher.match_user.
  rewrite decide_False; [|by rewrite elem_of_list_to_set].
  by rewrite Hg.
Qed.

Lemma match_user_Ok (st st' : Matcher.state) (u : User.t) :
  Matcher.match_user d st u = Ok st' →
  (User.email u ∈ Matcher.already_matched st ∧ st' = st) ∨
  (∃ m, chosen d st u m ∧ st' = after_match st u m).
Proof.
  unfold Matcher.match_user. case_decide as Hin.
  - intros [= <-]. left. by rewrite elem_of_list_to_set in Hin.
  - destruct (User.get_possible_matches u (Matcher.remaining st) d)
      as [|m tl] eqn:Hg; [done|].
    intros [= <-]. right. exists m. split; [|done].
    split; [by rewrite elem_of_list_to_set in Hin|by exists tl].
Qed.

Lemma match_users_app (st : Matcher.state) (pre post : list User.t) :
  Matcher.match_users d st (pre ++ post) =
  Matcher.match_users d st pre ≫= fun st' => Matcher.match_users d st' post.
Proof.
  revert st. induction pre as [|u pre IH]; intros st; simpl; [done|].
  destruct (Matcher.match_user d st u) as [st1|e]; simpl; [apply IH|done].
Qed.

(** Every pair of the final list was appended by one iteration of the
    loop, in the state reached after the users before it. *)
Lemma match_users_origin (us : list User.t) (st st' : Matcher.state)
    (r m : string) :
  Matcher.match_users d st us = Ok st' →
  (r, m) ∈ Matcher._matches st' →
  (r, m) ∈ Matcher._matches st ∨
  ∃ pre u post st_u,
    us = pre ++ u :: post ∧
    Matcher.match_users d st pre = Ok st_u ∧
    User.email u = r ∧ chosen d st_u u m.
Proof.
  revert st. induction us as [|u us IH]; intros st; simpl.
  - intros [= <-] Hin. by left.
  - intros (st1 & Hstep & Hrest)%result_bind_Ok Hin.
    destruct (IH _ Hrest Hin) as [Hold|(pre & u' & post & st_u & -> & Hpre & Hr & Hch)].
    + apply match_user_Ok in Hstep as [[_ ->]|(m' & Hch & ->)]; [by left|].
      simpl in Hold. apply elem_of_app in Hold as [?|Hnew]; [by left|].
      apply list_elem_of_singleton in Hnew as [= -> ->].
      right. exists [], u, us, st. done.
    + right. exists (u :: pre), u', post, st_u. simpl. rewrite Hstep. done.
Qed.

(** The pairs only grow. *)
Lemma match_users_extends (us : list User.t) (st st' : Matcher.state) :
  Matcher.match_users d st us = Ok st' →
  ∃ new, Matcher._matches st' = Matcher._matches st ++ new.
Proof.
  revert st. induction us as [|u us IH]; intros st; simpl.
  - intros [= <-]. exists []. by rewrite app_nil_r.
  - intros (st1 & Hstep & Hrest)%result_bind_Ok.
    destruct (IH _ Hrest) as [new Hnew].
    apply match_user_Ok in Hstep as [[_ ->]|(m' & Hch & ->)]; [by exists new|].
    simpl in Hnew. rewrite <- app_assoc in Hnew. eauto.
Qed.

Lemma pool_inv_step (u : User.t) (post : list User.t) (st st' : Matcher.state) :
  pool_inv (u :: post) st → Matcher.match_user d st u = Ok st' →
  pool_inv post st'.
Proof.
  intros [Hrem Halr] Hstep.
  apply match_user_Ok in Hstep as [[Hin ->]|(m & [Hni [tl Hg]] & ->)].
  - split; [|done]. intros e He.
    specialize (Hrem e He). simpl in Hrem.
    apply elem_of_cons in Hrem as [->|?]; [|done].
    by destruct (Halr _ Hin).
  - split; simpl.
    + intros e (He & Hne)%elem_of_difference.
      specialize (Hrem e He). simpl in Hrem.
      apply elem_of_cons in Hrem as [->|?]; [|done].
      exfalso. apply Hne. set_solver.
    + intros e [He|He%list_elem_of_singleton]%elem_of_app.
      * intros (Hn & _)%elem_of_difference. by apply (Halr e).
      * subst e. intros (_ & Hn)%elem_of_difference.
        apply Hn. set_solver.
Qed.

Lemma pool_inv_run (pre post : list User.t) (st st' : Matcher.state) :
  pool_inv (pre ++ post) st → Matcher.match_users d st pre = Ok st' →
  pool_inv post st'.
Proof.
  revert st. induction pre as [|u pre IH]; intros st Hinv; simpl.
  - by intros [= <-].
  - intros (st1 & Hstep & Hrest)%result_bind_Ok.
    eapply IH; [|done]. by eapply pool_inv_step.
Qed.

Lemma pool_inv_initial (es : list string) (h : gmap string (list string)) :
  pool_inv (Matcher.users_of es h d) (Matcher.initial es).
Proof.
  split; simpl.
  - intros e He. rewrite email_users_of. by apply elem_of_list_to_set in He.
  - intros e He. by apply not_elem_of_nil in He.
Qed.
End loop.

Lemma matches_of_Ok (es : list string) (h : gmap string (list string))
    (d : gmap string (option Z)) (pairs : list (string * string)) :
  Matcher.matches_of es h d = Ok pairs ↔
  ∃ st, Matcher.match_users d (Matcher.initial es) (Matcher.users_of es h d) = Ok st ∧
        Matcher._matches st = pairs.
Proof.
  unfold Matcher.matches_of. rewrite result_bind_Ok.
  split; intros (st & Hrun & Hp); exists st; split; try done; by simplify_eq.
Qed.

(** [matches] of a [Matcher] is [matches_of] on its three tables, the
    history being read only when somebody opted in. *)
Lemma matches_matches_of (self : Matcher.t) :
  Matcher.matches self =
  match Matcher.available_emails self with
  | [] => Ok []
  | _ :: _ =>
      Matcher.historical_matches self ≫= fun h =>
        Matcher.matches_of (Matcher.available_emails self) h
          (Matcher.user_departments self)
  end.
Proof.
  unfold Matcher.matches, Matcher.users, Matcher.matches_of.
  destruct (Matcher.available_emails self) as [|e es]; [done|].
  by destruct (Matcher.historical_matches self).
Qed.

(** Every pair produced comes from a user of the list, visited in a state
    that satisfies the loop invariant. *)
Lemma matches_of_origin (es : list string) (h : gmap string (list string))
    (d : gmap string (option Z)) (pairs : list (string * string)) (r m : string) :
  Matcher.matches_of es h d = Ok pairs → (r, m) ∈ pairs →
  ∃ pre u post st,
    Matcher.users_of es h d = pre ++ u :: post ∧
    Matcher.match_users d (Matcher.initial es) pre = Ok st ∧
    pool_inv (u :: post) st ∧
    User.email u = r ∧ chosen d st u m.
Proof.
  intros (st' & Hrun & <-)%matches_of_Ok Hin.
  destruct (match_users_origin d _ _ _ _ _ Hrun Hin)
    as [Hold|(pre & u & post & st & Hus & Hpre & Hr & Hch)].
  - simpl in Hold. by apply not_elem_of_nil in Hold.
  - exists pre, u, post, st. split_and!; try done.
    eapply pool_inv_run; [|done]. rewrite <- Hus. apply pool_inv_initial.
Qed.

(** ** Exhausted candidates *)

(** C2. When no eligible candidate remains for a participant who was not
    taken as a match before, [get_possible_matches] returns the empty list
    (it is a total function: it does not raise), and [matches] raises
    [IndexError]: no list of pairs is returned. *)
Theorem exhausted_candidates_abort (available_emails : list string)
    (h : gmap string (list string)) (d : gmap string (option Z))
    (pre post : list User.t) (u : User.t) (st : Matcher.state) :
  Matcher.users_of available_emails h d = pre ++ u :: post →
  Matcher.match_users d (Matcher.initial available_emails) pre = Ok st →
  (User.email u ∉ Matcher.already_matched st) →
  (∀ x, x ∈ Matcher.remaining st →
        x ∈ User.email u :: User.historical_matches u ∨
        dict_get d x = User.department_id u) →
  User.get_possible_matches u (Matcher.remaining st) d = [] ∧
  Matcher.matches_of available_emails h d = Raise IndexError.
Proof.
  intros Hus Hpre Hni Hnone.
  assert (User.get_possible_matches u (Matcher.remaining st) d = []) as Hnil
    by by apply get_possible_matches_nil.
  split; [done|].
  unfold Matcher.matches_of. rewrite Hus, match_users_app, Hpre. simpl.
  by rewrite match_user_exhausted.
Qed.

Lemma exhausted_candidates_abort_witness :
  User.get_possible_matches (User.New "a@x.com" None [])
    (list_to_set ["a@x.com"; "b@x.com"]) ∅ = [] ∧
  Matcher.matches_of (Matcher.available_emails_of scenario_b_requests) ∅ ∅
  = Raise IndexError.
Proof.
  apply (exhausted_candidates_abort
           (Matcher.available_emails_of scenario_b_requests) ∅ ∅
           [] [User.New "b@x.com" None []] (User.New "a@x.com" None [])
           (Matcher.initial ["a@x.com"; "b@x.com"])).
  - vm_compute. reflexivity.
  - vm_compute. reflexivity.
  - simpl. apply not_elem_of_nil.
  - intros x Hx. right. reflexivity.
Defined.

(** ** Department exclusion *)

(** C3. The two members of a pair never have equal department ids, where
    the id of an email is [user_departments.get(email)] and an unknown
    department is [None]: in particular two participants of unknown
    department are never paired.  With the pool [a@x.com, b@x.com], an
    empty department map and no history the resolver finds no candidate
    for a@x.com and the run raises. *)
Theorem pairs_differ_in_department :
  (∀ (available_emails : list string) (h : gmap string (list string))
     (d : gmap string (option Z)) (pairs : list (string * string)) (r m : string),
     Matcher.matches_of available_emails h d = Ok pairs → (r, m) ∈ pairs →
     dict_get d r ≠ dict_get d m) ∧
  User.get_possible_matches (User.New "a@x.com" None [])
    (list_to_set (Matcher.available_emails_of scenario_b_requests)) ∅ = [] ∧
  Matcher.matches_of (Matcher.available_emails_of scenario_b_requests) ∅ ∅
  = Raise IndexError.
Proof.
  split; [|split; vm_compute; reflexivity].
  intros es h d pairs r m Hrun Hin.
  destruct (matches_of_origin _ _ _ _ _ _ Hrun Hin)
    as (pre & u & post & st & Hus & _ & _ & <- & _ & tl & Hg).
  assert (u ∈ Matcher.users_of es h d) as Hu.
  { rewrite Hus. apply elem_of_app. right. by left. }
  apply elem_of_users_of in Hu as [Hd _].
  assert (m ∈ User.get_possible_matches u (Matcher.remaining st) d) as Hm
    by (rewrite Hg; by left).
  apply elem_of_get_possible_matches in Hm as (_ & _ & _ & Hne).
  rewrite <- Hd. congruence.
Qed.

Lemma pairs_differ_in_department_witness :
  Matcher.matches_of (Matcher.available_emails_of scenario_c_requests)
    scenario_c_history scenario_c_departments
  = Ok [("a@x.com", "c@x.com"); ("b@x.com", "d@x.com")] ∧
  dict_get scenario_c_departments "a@x.com" ≠
  dict_get scenario_c_departments "c@x.com".
Proof.
  assert (Matcher.matches_of (Matcher.available_emails_of scenario_c_requests)
            scenario_c_history scenario_c_departments
          = Ok [("a@x.com", "c@x.com"); ("b@x.com", "d@x.com")]) as Hrun
    by (vm_compute; reflexivity).
  split; [exact Hrun|].
  apply (proj1 pairs_differ_in_department _ _ _ _ "a@x.com" "c@x.com" Hrun).
  apply list_elem_of_here.
Defined.

(** ** The choice of the match *)

(** C6. The match of every pair is the alphabetically first eligible
    candidate: it is returned by the resolver in the state in which the
    requester is visited, and no candidate returned there is smaller.  For
    the pool [a@x.com, b@x.com, c@x.com, d@x.com] in four departments, where
    a@x.com has met b@x.com, the pairs are (a@x.com, c@x.com) and then
    (b@x.com, d@x.com). *)
Theorem smallest_candidate_is_chosen :
  (∀ (available_emails : list string) (h : gmap string (list string))
     (d : gmap string (option Z)) (pairs : list (string * string)) (r m : string),
     Matcher.matches_of available_emails h d = Ok pairs → (r, m) ∈ pairs →
     ∃ pre u post st,
       Matcher.users_of available_emails h d = pre ++ u :: post ∧
       Matcher.match_users d (Matcher.initial available_emails) pre = Ok st ∧
       User.email u = r ∧
       m ∈ User.get_possible_matches u (Matcher.remaining st) d ∧
       ∀ c, c ∈ User.get_possible_matches u (Matcher.remaining st) d →
            String.le m c) ∧
  Matcher.matches_of (Matcher.available_emails_of scenario_c_requests)
    scenario_c_history scenario_c_departments
  = Ok [("a@x.com", "c@x.com"); ("b@x.com", "d@x.com")].
Proof.
  split; [|vm_compute; reflexivity].
  intros es h d pairs r m Hrun Hin.
  destruct (matches_of_origin _ _ _ _ _ _ Hrun Hin)
    as (pre & u & post & st & Hus & Hpre & _ & Hr & _ & tl & Hg).
  exists pre, u, post, st. split_and!; try done;
    by eapply get_possible_matches_head.
Qed.

Lemma smallest_candidate_is_chosen_witness :
  ∃ pre u post st,
    Matcher.users_of (Matcher.available_emails_of scenario_c_requests)
      scenario_c_history scenario_c_departments = pre ++ u :: post ∧
    Matcher.match_users scenario_c_departments
      (Matcher.initial (Matcher.available_emails_of scenario_c_requests)) pre = Ok st ∧
    User.email u = "b@x.com" ∧
    "d@x.com" ∈ User.get_possible_matches u (Matcher.remaining st) scenario_c_departments ∧
    ∀ c, c ∈ User.get_possible_matches u (Matcher.remaining st) scenario_c_departments →
         String.le "d@x.com" c.
Proof.
  apply (proj1 smallest_candidate_is_chosen
           (Matcher.available_emails_of scenario_c_requests)
           scenario_c_history scenario_c_departments
           [("a@x.com", "c@x.com"); ("b@x.com", "d@x.com")]).
  - vm_compute. reflexivity.
  - apply list_elem_of_further, list_elem_of_here.
Defined.

(** ** Requester before match *)

(** The users are visited in ascending order and the visited ones have
    left the pool, so a match comes after its requester. *)
Lemma match_after_requester (requests : list Matcher.request)
    (h : gmap string (list string)) (d : gmap string (option Z))
    (pairs : list (string * string)) (r m : string) :
  Matcher.matches_of (Matcher.available_emails_of requests) h d = Ok pairs →
  (r, m) ∈ pairs →
  (r ?= m)%string = Lt.
Proof.
  intros Hrun Hin.
  destruct (matches_of_origin _ _ _ _ _ _ Hrun Hin)
    as (pre & u & post & st & Hus & _ & [Hrem _] & <- & _ & tl & Hg).
  assert (m ∈ User.get_possible_matches u (Matcher.remaining st) d) as Hm
    by (rewrite Hg; by left).
  apply elem_of_get_possible_matches in Hm as (Hm & Hne & _ & _).
  apply string_le_neq_lt; [|done].
  specialize (Hrem m Hm). simpl in Hrem.
  apply elem_of_cons in Hrem as [?|Hpost]; [done|].
  pose proof (sorted_strongly
    (map Matcher.email_address
       (filter (fun row => Matcher.opted_in row = true) requests))) as Hs.
  fold (Matcher.available_emails_of requests) in Hs.
  rewrite <- (email_users_of _ h d), Hus, map_app in Hs. simpl in Hs.
  apply StronglySorted_app_1_r, StronglySorted_inv in Hs as [_ Hall].
  rewrite Forall_forall in Hall. by apply Hall.
Qed.

(** A match was never met before, as far as the requester's history says. *)
Lemma match_not_in_history (available_emails : list string)
    (h : gmap string (list string)) (d : gmap string (option Z))
    (pairs : list (string * string)) (r m : string) :
  Matcher.matches_of available_emails h d = Ok pairs → (r, m) ∈ pairs →
  m ∉ dict_get_list h r.
Proof.
  intros Hrun Hin.
  destruct (matches_of_origin _ _ _ _ _ _ Hrun Hin)
    as (pre & u & post & st & Hus & _ & _ & <- & _ & tl & Hg).
  assert (u ∈ Matcher.users_of available_emails h d) as Hu.
  { rewrite Hus. apply elem_of_app. right. by left. }
  apply elem_of_users_of in Hu as [_ <-].
  assert (m ∈ User.get_possible_matches u (Matcher.remaining st) d) as Hm
    by (rewrite Hg; by left).
  by apply elem_of_get_possible_matches in Hm as (_ & _ & ? & _).
Qed.

(** C10. In every pair of a successful run the requester's email is
    strictly smaller than the matched email: when the requester is visited
    the remaining pool holds emails of later users only, the list of users
    is ascending, and the requester itself is no candidate. *)
Theorem requester_smaller_than_match (requests : list Matcher.request)
    (h : gmap string (list string)) (d : gmap string (option Z))
    (pairs : list (string * string)) (r m : string) :
  Matcher.matches_of (Matcher.available_emails_of requests) h d = Ok pairs →
  (r, m) ∈ pairs →
  (r ?= m)%string = Lt ∧
  ∃ pre u post st,
    Matcher.users_of (Matcher.available_emails_of requests) h d
    = pre ++ u :: post ∧
    Matcher.match_users d
      (Matcher.initial (Matcher.available_emails_of requests)) pre = Ok st ∧
    User.email u = r ∧
    (∀ e, e ∈ Matcher.remaining st → e ∈ map User.email (u :: post)) ∧
    ∃ tl, User.get_possible_matches u (Matcher.remaining st) d = m :: tl.
Proof.
  intros Hrun Hin. split; [by eapply match_after_requester|].
  destruct (matches_of_origin _ _ _ _ _ _ Hrun Hin)
    as (pre & u & post & st & Hus & Hpre & [Hrem _] & Hr & _ & tl & Hg).
  exists pre, u, post, st. split_and!; try done. by exists tl.
Qed.

Lemma requester_smaller_than_match_witness :
  Matcher.matches_of (Matcher.available_emails_of scenario_c_requests)
    scenario_c_history scenario_c_departments
  = Ok [("a@x.com", "c@x.com"); ("b@x.com", "d@x.com")] ∧
  ("b@x.com" ?= "d@x.com")%string = Lt.
Proof.
  assert (Matcher.matches_of (Matcher.available_emails_of scenario_c_requests)
            scenario_c_history scenario_c_departments
          = Ok [("a@x.com", "c@x.com"); ("b@x.com", "d@x.com")]) as Hrun
    by (vm_compute; reflexivity).
  split; [exact Hrun|].
  destruct (requester_smaller_than_match _ _ _ _ "b@x.com" "d@x.com" Hrun)
    as [Hlt _]; [|exact Hlt].
  apply list_elem_of_further, list_elem_of_here.
Defined.

(** ** Pools without constraints *)

Lemma list_pair_ind {A} (P : list A → Prop) :
  P [] → (∀ a, P [a]) → (∀ a b l, P l → P (a :: b :: l)) → ∀ l, P l.
Proof.
  intros H0 H1 H2 l.
  assert (P l ∧ ∀ a, P (a :: l)) as [? _]; [|done].
  induction l as [|b l [IH1 IH2]]; [by split|].
  split; [apply IH2|]. intros a. by apply H2.
Qed.

Lemma unconstrained_tail (a : string) (l : list string)
    (h : gmap string (list string)) (d : gmap string (option Z)) :
  unconstrained (a :: l) h d → unconstrained l h d.
Proof.
  intros [Hh Hd]. split.
  - intros e x He Hx Hl. apply (Hh e x); [by right|done|by right].
  - intros e1 e2 H1 H2. apply Hd; by right.
Qed.

Lemma length_pair_up (l : list string) : length (pair_up l) = length l / 2.
Proof.
  induction l as [| |a b l IH] using list_pair_ind; [done..|].
  simpl pair_up. simpl length. rewrite IH.
  change (S (S (length l))) with (1 * 2 + length l).
  by rewrite Nat.div_add_l.
Qed.

Lemma pair_up_perm (l : list string) :
  Nat.even (length l) = true →
  map fst (pair_up l) ++ map snd (pair_up l) ≡ₚ l.
Proof.
  induction l as [| |a b l IH] using list_pair_ind; [done..|].
  simpl. intros Hev. rewrite <- (IH Hev) at 3.
  by rewrite <- Permutation_middle.
Qed.

Section unconstrained_pool.
Context (h : gmap string (list string)) (d : gmap string (option Z)).

(** The first candidate of the smallest member of the pool is its
    successor. *)
Lemma first_candidate_is_successor (a b : string) (l : list string)
    (remaining : gset string) :
  StronglySorted String.le (a :: b :: l) → NoDup (a :: b :: l) →
  unconstrained (a :: b :: l) h d →
  remaining = list_to_set (a :: b :: l) →
  ∃ tl, User.get_possible_matches
          (User.New a (dict_get d a) (dict_get_list h a)) remaining d = b :: tl.
Proof.
  intros Hs Hnd [Hh Hd] ->.
  set (u := User.New a (dict_get d a) (dict_get_list h a)).
  assert (a ≠ b) as Hab.
  { apply NoDup_cons in Hnd as [Ha _]. intros ->. apply Ha. by left. }
  assert (b ∈ User.get_possible_matches u (list_to_set (a :: b :: l)) d) as Hb.
  { apply elem_of_get_possible_matches. simpl. split_and!.
    - set_solver.
    - done.
    - intros Hx. apply (Hh a b); [by left|done|]. right. by left.
    - apply Hd; [right; by left|by left|done]. }
  destruct (User.get_possible_matches u (list_to_set (a :: b :: l)) d)
    as [|m tl] eqn:Hg; [by apply not_elem_of_nil in Hb|].
  exists tl. f_equal.
  destruct (get_possible_matches_head _ _ _ _ _ Hg) as [Hm Hleast].
  rewrite Hg in Hleast. specialize (Hleast b Hb).
  apply elem_of_get_possible_matches in Hm as (Hm & Hne & _ & _). simpl in Hne.
  apply elem_of_list_to_set in Hm.
  apply elem_of_cons in Hm as [?|Hm]; [done|].
  apply elem_of_cons in Hm as [?|Hm]; [done|].
  apply StronglySorted_inv in Hs as [Hs _].
  apply StronglySorted_inv in Hs as [_ Hall].
  rewrite Forall_forall in Hall.
  apply (anti_symm String.le); [done|by apply Hall].
Qed.

(** On a strictly sorted pool without constraints the loop pairs the
    neighbours, and raises at the last user when the pool is odd. *)
Lemma match_users_unconstrained (l : list string) :
  ∀ st : Matcher.state,
    StronglySorted String.le l → NoDup l → unconstrained l h d →
    Matcher.remaining st = list_to_set l →
    (∀ e, e ∈ Matcher.already_matched st → e ∉ l) →
    if Nat.even (length l)
    then ∃ st', Matcher.match_users d st (Matcher.users_of l h d) = Ok st' ∧
                Matcher._matches st' = Matcher._matches st ++ pair_up l
    else Matcher.match_users d st (Matcher.users_of l h d) = Raise IndexError.
Proof.
  induction l as [|a|a b l IH] using list_pair_ind; intros st Hs Hnd Hun Hrem Halr.
  - simpl. exists st. by rewrite app_nil_r.
  - simpl. rewrite match_user_exhausted; [done| |].
    + simpl. intros Ha. apply (Halr a Ha). by left.
    + apply get_possible_matches_nil. intros x Hx. left. simpl.
      rewrite Hrem in Hx.
      apply elem_of_list_to_set, list_elem_of_singleton in Hx as ->. by left.
  - destruct (first_candidate_is_successor a b l _ Hs Hnd Hun Hrem) as [tl Hg].
    set (ua := User.New a (dict_get d a) (dict_get_list h a)) in *.
    set (ub := User.New b (dict_get d b) (dict_get_list h b)).
    assert (chosen d st ua b) as Hch.
    { split; [|by exists tl]. simpl. intros Ha. apply (Halr a Ha). by left. }
    pose proof Hnd as Hnd'.
    apply NoDup_cons in Hnd' as [Ha Hnd']. apply NoDup_cons in Hnd' as [Hb Hnd'].
    assert (StronglySorted String.le l) as Hs'.
    { apply StronglySorted_inv in Hs as [Hs _].
      by apply StronglySorted_inv in Hs as [Hs _]. }
    assert (unconstrained l h d) as Hun'
      by by do 2 apply unconstrained_tail in Hun.
    assert (Matcher.remaining (after_match st ua b) = list_to_set l) as Hrem'.
    { unfold after_match. cbn [Matcher.remaining].
      rewrite Hrem. apply set_eq. intros x.
      rewrite elem_of_difference, !elem_of_list_to_set, !elem_of_cons.
      split.
      - intros [[->|[->|?]] Hn]; [exfalso; apply Hn; auto..|done].
      - intros Hx. split; [auto|].
        intros [->|[->|Hnil]]; [done| |by apply not_elem_of_nil in Hnil].
        apply Ha. by right. }
    assert (∀ e, e ∈ Matcher.already_matched (after_match st ua b) → e ∉ l)
      as Halr'.
    { simpl. intros e [He|He%list_elem_of_singleton]%elem_of_app.
      - intros Hl. apply (Halr e He). by do 2 right.
      - by subst e. }
    specialize (IH (after_match st ua b) Hs' Hnd' Hun' Hrem' Halr').
    change (Matcher.users_of (a :: b :: l) h d)
      with (ua :: ub :: Matcher.users_of l h d).
    change (length (a :: b :: l)) with (S (S (length l))).
    change (Nat.even (S (S (length l)))) with (Nat.even (length l)).
    assert (Matcher.match_users d st (ua :: ub :: Matcher.users_of l h d) =
            Matcher.match_users d (after_match st ua b) (Matcher.users_of l h d))
      as ->.
    { simpl Matcher.match_users at 1. rewrite (match_user_chosen d st ua b Hch).
      simpl. rewrite match_user_skip; [done|].
      simpl. apply elem_of_app. right. by left. }
    destruct (Nat.even (length l)); [|done].
    destruct IH as (st' & Hrun & Hp). exists st'. split; [done|].
    rewrite Hp. simpl. by rewrite <- app_assoc.
Qed.
End unconstrained_pool.

Lemma three_requests_unconstrained :
  unconstrained (Matcher.available_emails_of three_requests) ∅
    scenario_c_departments.
Proof.
  replace (Matcher.available_emails_of three_requests)
    with ["a@x.com"; "b@x.com"; "c@x.com"] by (vm_compute; reflexivity).
  split.
  - intros e x _ Hx. unfold dict_get_list in Hx. rewrite lookup_empty in Hx.
    by apply not_elem_of_nil in Hx.
  - intros e1 e2 H1 H2 Hne.
    elem_of_cases H1; elem_of_cases H2; try done; vm_compute; discriminate.
Qed.

(** C1, as stated, fails on an odd pool: three participants in three
    departments without history satisfy its premises, and the run raises
    [IndexError] at the last participant instead of leaving them unmatched. *)
Lemma odd_pool_counterexample :
  Matcher.available_emails_of three_requests = ["a@x.com"; "b@x.com"; "c@x.com"] ∧
  unconstrained (Matcher.available_emails_of three_requests) ∅
    scenario_c_departments ∧
  Matcher.matches_of (Matcher.available_emails_of three_requests) ∅
    scenario_c_departments = Raise IndexError ∧
  ¬ all_but_one_paired three_requests ∅ scenario_c_departments.
Proof.
  assert (Matcher.matches_of (Matcher.available_emails_of three_requests) ∅
            scenario_c_departments = Raise IndexError) as Hrun
    by (vm_compute; reflexivity).
  split_and!; [vm_compute; reflexivity|apply three_requests_unconstrained|done|].
  intros (pairs & Hp & _). by rewrite Hrun in Hp.
Qed.

(** C1, amended.  For a pool of [N] distinct emails without history and
    department constraints: when [N] is even the run succeeds with [N / 2]
    pairs in which every email of the pool occurs exactly once; when [N] is
    odd the run raises [IndexError]. *)
Theorem unconstrained_pool_pairs (requests : list Matcher.request)
    (h : gmap string (list string)) (d : gmap string (option Z)) :
  NoDup (Matcher.available_emails_of requests) →
  unconstrained (Matcher.available_emails_of requests) h d →
  if Nat.even (length (Matcher.available_emails_of requests))
  then ∃ pairs,
         Matcher.matches_of (Matcher.available_emails_of requests) h d = Ok pairs ∧
         length pairs = length (Matcher.available_emails_of requests) / 2 ∧
         map fst pairs ++ map snd pairs ≡ₚ Matcher.available_emails_of requests
  else Matcher.matches_of (Matcher.available_emails_of requests) h d
       = Raise IndexError.
Proof.
  intros Hnd Hun.
  set (es := Matcher.available_emails_of requests) in *.
  assert (StronglySorted String.le es) as Hs by apply sorted_strongly.
  pose proof (match_users_unconstrained h d es (Matcher.initial es) Hs Hnd Hun
                eq_refl) as Hrun.
  destruct (Nat.even (length es)) eqn:Hev.
  - destruct Hrun as (st' & Hrun & Hp).
    { intros e He. by apply not_elem_of_nil in He. }
    exists (pair_up es). split_and!.
    + apply matches_of_Ok. exists st'. by rewrite Hp.
    + apply length_pair_up.
    + by apply pair_up_perm.
  - unfold Matcher.matches_of. rewrite Hrun; [done|].
    intros e He. by apply not_elem_of_nil in He.
Qed.

Lemma unconstrained_pool_pairs_witness :
  (∃ pairs,
     Matcher.matches_of (Matcher.available_emails_of scenario_b_requests) ∅
       scenario_c_departments = Ok pairs ∧
     length pairs = length (Matcher.available_emails_of scenario_b_requests) / 2 ∧
     map fst pairs ++ map snd pairs
       ≡ₚ Matcher.available_emails_of scenario_b_requests) ∧
  Matcher.matches_of (Matcher.available_emails_of three_requests) ∅
    scenario_c_departments = Raise IndexError.
Proof.
  split.
  - apply (unconstrained_pool_pairs scenario_b_requests ∅ scenario_c_departments).
    + compute_done.
    + replace (Matcher.available_emails_of scenario_b_requests)
        with ["a@x.com"; "b@x.com"] by (vm_compute; reflexivity).
      split.
      * intros e x _ Hx. unfold dict_get_list in Hx. rewrite lookup_empty in Hx.
        by apply not_elem_of_nil in Hx.
      * intros e1 e2 H1 H2 Hne.
        elem_of_cases H1; elem_of_cases H2; try done; vm_compute; discriminate.
  - apply (unconstrained_pool_pairs three_requests ∅ scenario_c_departments).
    + compute_done.
    + apply three_requests_unconstrained.
Defined.

(** ** The output file *)

(** C5, as stated, fails: [export_matches] opens the output file for
    writing before it reads [self.matches].  In scenario B the run raises
    and the file, absent before, exists afterwards, with no row. *)
Lemma output_file_counterexample :
  (∅ : gmap string (list (list string))) !! Matcher.csv_file_name "20190301" = None ∧
  (Matcher.export_matches scenario_b_files "20190301" ∅).2 = Raise IndexError ∧
  (Matcher.export_matches scenario_b_files "20190301" ∅).1
    !! Matcher.csv_file_name "20190301" = Some [].
Proof. split_and!; vm_compute; reflexivity. Qed.

(** C5, amended.  [export_matches] creates (or truncates) the output file
    first and computes the pairs afterwards: when the run fails, because
    [matches] raises or is empty, the file exists and holds no row, and
    the other files are untouched. *)
Theorem export_failure_leaves_empty_file (self : Matcher.t) (date : string)
    (files : gmap string (list (list string))) (e : exn) :
  (Matcher.export_matches self date files).2 = Raise e →
  (Matcher.export_matches self date files).1
  = <[Matcher.csv_file_name date := []]> files ∧
  (Matcher.matches self = Raise e ∨
   Matcher.matches self = Ok [] ∧ e = IndexError).
Proof.
  unfold Matcher.export_matches.
  destruct (Matcher.matches self) as [[|m ms]|e'] eqn:Hm; simpl.
  - intros [= <-]. auto.
  - done.
  - intros [= <-]. auto.
Qed.

Lemma export_failure_leaves_empty_file_witness :
  (Matcher.export_matches scenario_b_files "20190301" ∅).1
  = <[Matcher.csv_file_name "20190301" := []]> ∅ ∧
  (Matcher.matches scenario_b_files = Raise IndexError ∨
   Matcher.matches scenario_b_files = Ok [] ∧ IndexError = IndexError).
Proof.
  apply (export_failure_leaves_empty_file scenario_b_files "20190301" ∅ IndexError).
  vm_compute. reflexivity.
Defined.

(** ** Determinism *)

Lemma resolves_get_possible_matches (u : User.t) (available_emails : gset string)
    (d : gmap string (option Z)) (l : list string) :
  resolves u available_emails d l ↔
  l = User.get_possible_matches u available_emails d.
Proof.
  split.
  - intros [iteration Hp]. by apply possible_matches_from_order.
  - intros ->. by constructor.
Qed.

Lemma runs_match_users (d : gmap string (option Z)) (st : Matcher.state)
    (us : list User.t) (r : result Matcher.state) :
  runs d st us r ↔ r = Matcher.match_users d st us.
Proof.
  split.
  - induction 1 as [st|st u us r Hin _ IH|st u us Hni Hres
                   |st u us m tl r Hni Hres _ IH]; simpl.
    + done.
    + by rewrite match_user_skip.
    + apply resolves_get_possible_matches in Hres.
      by rewrite match_user_exhausted.
    + apply resolves_get_possible_matches in Hres.
      rewrite (match_user_chosen d st u m); [done|].
      split; [done|by exists tl].
  - intros ->. revert st. induction us as [|u us IH]; intros st; simpl.
    + constructor.
    + destruct (decide (User.email u ∈ Matcher.already_matched st)) as [Hin|Hni].
      * rewrite match_user_skip by done. simpl. by apply runs_skip.
      * destruct (User.get_possible_matches u (Matcher.remaining st) d)
          as [|m tl] eqn:Hg.
        -- rewrite match_user_exhausted by done. simpl.
           apply runs_raise; [done|]. by apply resolves_get_possible_matches.
        -- rewrite (match_user_chosen d st u m) by (split; [done|by exists tl]).
           simpl. apply (runs_match d st u us m tl); [done| |apply IH].
           by apply resolves_get_possible_matches.
Qed.

Lemma matches_run_matches_of (available_emails : list string)
    (h : gmap string (list string)) (d : gmap string (option Z))
    (out : result (list (string * string))) :
  matches_run available_emails h d out ↔
  out = Matcher.matches_of available_emails h d.
Proof.
  unfold matches_run, Matcher.matches_of. split.
  - intros (r & Hr%runs_match_users & ->). by subst r.
  - intros ->. eexists. split; [by apply runs_match_users|done].
Qed.

(** C7. Two runs of the matcher on the same opt-in list, department map
    and history map give the same result, pairs in the same order, and two
    calls of the resolver with the same arguments return the same list,
    whatever order the sets are iterated in. *)
Theorem matching_is_deterministic (available_emails : list string)
    (h : gmap string (list string)) (d : gmap string (option Z))
    (out1 out2 : result (list (string * string)))
    (u : User.t) (available : gset string) (l1 l2 : list string) :
  matches_run available_emails h d out1 →
  matches_run available_emails h d out2 →
  resolves u available d l1 →
  resolves u available d l2 →
  out1 = out2 ∧ l1 = l2.
Proof.
  intros ->%matches_run_matches_of ->%matches_run_matches_of
         ->%resolves_get_possible_matches ->%resolves_get_possible_matches.
  done.
Qed.

Lemma matching_is_deterministic_witness :
  Matcher.matches_of (Matcher.available_emails_of scenario_c_requests)
    scenario_c_history scenario_c_departments
  = Ok [("a@x.com", "c@x.com"); ("b@x.com", "d@x.com")] ∧
  User.possible_matches_from ["d@x.com"; "b@x.com"; "c@x.com"]
    (User.New "a@x.com" (Some 1%Z) []) scenario_c_departments
  = User.possible_matches_from ["c@x.com"; "d@x.com"; "b@x.com"]
    (User.New "a@x.com" (Some 1%Z) []) scenario_c_departments.
Proof.
  apply (matching_is_deterministic
           (Matcher.available_emails_of scenario_c_requests)
           scenario_c_history scenario_c_departments _ _
           (User.New "a@x.com" (Some 1%Z) [])
           (list_to_set ["a@x.com"; "b@x.com"; "c@x.com"; "d@x.com"])).
  - by apply matches_run_matches_of.
  - apply matches_run_matches_of. vm_compute. reflexivity.
  - constructor. apply NoDup_Permutation.
    + compute_done.
    + apply NoDup_elements.
    + intros x. rewrite elem_of_elements. set_unfold. simpl.
      split; [intros [->|[->|[->|[]]]]|]; [split; [auto|intros [?|[]]; done]..|].
      intros [[->|[->|[->|[->|[]]]]] Hn]; auto. destruct Hn. auto.
  - constructor. apply NoDup_Permutation.
    + compute_done.
    + apply NoDup_elements.
    + intros x. rewrite elem_of_elements. set_unfold. simpl.
      split; [intros [->|[->|[->|[]]]]|]; [split; [auto|intros [?|[]]; done]..|].
      intros [[->|[->|[->|[->|[]]]]] Hn]; auto. destruct Hn. auto.
Defined.

(** ** Reading the history *)

Lemma history_tabs_app (d : gmap string (list string))
    (t1 t2 : list (string * list (list Matcher.cell))) :
  Matcher.history_tabs d (t1 ++ t2) =
  Matcher.history_tabs d t1 ≫= fun d' => Matcher.history_tabs d' t2.
Proof.
  revert d. induction t1 as [|[tab data] t1 IH]; intros d; simpl; [done|].
  destruct (Matcher.history_tab d data) as [d'|e]; simpl; [apply IH|done].
Qed.

(** With fewer than two located columns every non-empty row raises. *)
Lemma history_row_too_few (locs : list nat) (d : gmap string (list string))
    (row : list Matcher.cell) :
  length locs < 2 → row ≠ [] → ∃ e, Matcher.history_row locs d row = Raise e.
Proof.
  intros Hlen Hrow. destruct row as [|item row]; [done|].
  unfold Matcher.history_row.
  destruct locs as [|loc1 [|loc2 locs]]; [by eexists| |simpl in Hlen; lia].
  unfold index at 1. simpl.
  destruct (index (item :: row) loc1) as [item1|e]; simpl; [|by eexists].
  destruct (Matcher.cell_lower item1) as [k1|e]; simpl; by eexists.
Qed.

Lemma history_rows_too_few (locs : list nat) (d : gmap string (list string))
    (rows : list (list Matcher.cell)) :
  length locs < 2 → (∃ row, row ∈ rows ∧ row ≠ []) →
  ∃ e, Matcher.history_rows locs d rows = Raise e.
Proof.
  intros Hlen. induction rows as [|row rows IH]; intros (row' & Hin & Hne).
  - by apply not_elem_of_nil in Hin.
  - simpl. destruct row as [|item row].
    + simpl. apply IH. exists row'. split; [|done].
      apply elem_of_cons in Hin as [->|?]; done.
    + destruct (history_row_too_few locs d (item :: row) Hlen) as [e ->]; [done|].
      by eexists.
Qed.

Lemma history_rows_empty (locs : list nat) (d : gmap string (list string))
    (rows : list (list Matcher.cell)) :
  (∀ row, row ∈ rows → row = []) → Matcher.history_rows locs d rows = Ok d.
Proof.
  induction rows as [|row rows IH]; intros Hall; simpl; [done|].
  rewrite (Hall row) by by left. simpl. apply IH. intros row' ?. apply Hall. by right.
Qed.

(** C8, as stated, fails: a sheet with a single email-shaped column does
    not contribute nothing, it makes [historical_matches] raise
    [IndexError], and the run with it. *)
Lemma one_email_column_counterexample :
  Matcher.email_locations_from 0
    [Matcher.Text "Alice"; Matcher.Text "bob@chownow.com"] = [1] ∧
  Matcher.historical_matches one_email_column = Raise IndexError ∧
  Matcher.matches one_email_column = Raise IndexError.
Proof. split_and!; vm_compute; reflexivity. Qed.

(** C8, amended.  Let a sheet of the history file have fewer than two
    email-shaped cells in the row that is scanned for them, the row of
    index 1.  If one of its rows from index 1 on is not empty,
    [historical_matches] raises an exception, whatever the other sheets
    are; if all of them are empty, the sheet contributes no link and the
    result is that of the file without the sheet. *)
Theorem too_few_email_columns (self : Matcher.t)
    (t1 t2 : list (string * list (list Matcher.cell))) (tab : string)
    (data : list (list Matcher.cell)) (row1 : list Matcher.cell) :
  Matcher.matches_file self = t1 ++ (tab, data) :: t2 →
  data !! 1 = Some row1 →
  length (Matcher.email_locations_from 0 row1) < 2 →
  ((∃ row, row ∈ drop 1 data ∧ row ≠ []) →
   ∃ e, Matcher.historical_matches self = Raise e) ∧
  ((∀ row, row ∈ drop 1 data → row = []) →
   Matcher.historical_matches self = Matcher.history_tabs ∅ (t1 ++ t2)).
Proof.
  intros Hfile Hrow1 Hlen. unfold Matcher.historical_matches.
  rewrite Hfile, !history_tabs_app.
  assert (∀ d, Matcher.history_tab d data =
               Matcher.history_rows (Matcher.email_locations_from 0 row1) d
                 (drop 1 data)) as Htab.
  { intros d. unfold Matcher.history_tab, index. by rewrite Hrow1. }
  split.
  - intros Hne. destruct (Matcher.history_tabs ∅ t1) as [d|e]; simpl; [|by eexists].
    rewrite Htab.
    destruct (history_rows_too_few _ d _ Hlen Hne) as [e ->]. by eexists.
  - intros Hall. destruct (Matcher.history_tabs ∅ t1) as [d|e]; simpl; [|done].
    by rewrite Htab, history_rows_empty.
Qed.

Lemma too_few_email_columns_witness :
  ∃ e, Matcher.historical_matches one_email_column = Raise e.
Proof.
  apply (too_few_email_columns one_email_column [] [] "March"
           [[Matcher.Text "Name"; Matcher.Text "Match"];
            [Matcher.Text "Alice"; Matcher.Text "bob@chownow.com"]]
           [Matcher.Text "Alice"; Matcher.Text "bob@chownow.com"]).
  - reflexivity.
  - reflexivity.
  - vm_compute. lia.
  - exists [Matcher.Text "Alice"; Matcher.Text "bob@chownow.com"].
    split; [apply list_elem_of_here|discriminate].
Defined.

(** ** A second round *)

Lemma dict_get_list_add_link (h : gmap string (list string)) (k1 k2 k : string) :
  dict_get_list (Matcher.add_link h k1 k2) k =
  if decide (k1 = k) then dict_get_list h k1 ++ [k2] else dict_get_list h k.
Proof.
  unfold Matcher.add_link, dict_get_list at 1. rewrite lookup_insert.
  by case_decide.
Qed.

Lemma add_link_keeps (h : gmap string (list string)) (k1 k2 k x : string) :
  x ∈ dict_get_list h k → x ∈ dict_get_list (Matcher.add_link h k1 k2) k.
Proof.
  intros Hx. rewrite dict_get_list_add_link. case_decide as Hk; [|done].
  subst k1. apply elem_of_app. by left.
Qed.

Lemma record_lowered_keeps (pairs : list (string * string)) :
  ∀ (h : gmap string (list string)) (k x : string),
    x ∈ dict_get_list h k → x ∈ dict_get_list (record_lowered h pairs) k.
Proof.
  induction pairs as [|p pairs IH]; intros h k x Hx; simpl; [done|].
  by apply IH, add_link_keeps.
Qed.

Lemma record_lowered_contains (pairs : list (string * string)) :
  ∀ (h : gmap string (list string)) (r m : string),
    (r, m) ∈ pairs →
    lower m ∈ dict_get_list (record_lowered h pairs) (lower r).
Proof.
  induction pairs as [|p pairs IH]; intros h r m Hin; simpl.
  - by apply not_elem_of_nil in Hin.
  - apply elem_of_cons in Hin as [<-|Hin]; [|by apply IH].
    apply record_lowered_keeps. simpl. rewrite dict_get_list_add_link.
    rewrite decide_True by done. apply elem_of_app. right. by left.
Qed.

(** C9. The round trip fails on the program.  In the first round, without
    history, Bob@chownow.com is paired with alice@chownow.com and the
    output file has that row.  With the output rows as the history sheet
    of a second round over the same participants, the loader records the
    link under bob@chownow.com, the history of Bob@chownow.com is looked
    up under the spelling of the opt-in list and is empty, and the second
    round produces the same pair again. *)
Theorem second_round_repeats_pair :
  (Matcher.export_matches round_one_files "20190301" ∅).1
    !! Matcher.csv_file_name "20190301" = Some round_one_output ∧
  Matcher.matches round_one_files
  = Ok [("Bob@chownow.com", "alice@chownow.com")] ∧
  Matcher.historical_matches round_two_files
  = Ok {[ "bob@chownow.com" := ["alice@chownow.com"] ]} ∧
  Matcher.matches round_two_files
  = Ok [("Bob@chownow.com", "alice@chownow.com")].
Proof. split_and!; vm_compute; reflexivity. Qed.

(** ** Letter case *)

(** C4. The history and the roster are keyed by lower-cased emails, but
    [available_emails] keeps the emails as they were typed.  The history
    of Bob@chownow.com is looked up under that spelling and is empty, so
    Bob is paired with alice@chownow.com again. *)
Theorem mixed_case_repeats_pair :
  Matcher.historical_matches mixed_case_files
  = Ok {[ "bob@chownow.com" := ["alice@chownow.com"] ]} ∧
  lower "Bob@chownow.com" = "bob@chownow.com" ∧
  Matcher.available_emails mixed_case_files
  = ["Bob@chownow.com"; "alice@chownow.com"] ∧
  Matcher.matches mixed_case_files
  = Ok [("Bob@chownow.com", "alice@chownow.com")].
Proof. split_and!; vm_compute; reflexivity. Qed.

(** * Further properties of the code *)

(** ** The resolver's result *)

Lemma strongly_sorted_strict (l : list string) :
  StronglySorted String.le l → NoDup l → StronglySorted string_lt l.
Proof.
  induction 1 as [|x l Hs IH Hall]; intros Hnd; [constructor|].
  apply NoDup_cons in Hnd as [Hx Hnd]. constructor; [by apply IH|].
  rewrite Forall_forall in Hall |- *. intros y Hy.
  apply string_le_neq_lt; [by apply Hall|]. by intros ->.
Qed.

Lemma get_possible_matches_NoDup (self : User.t) (available_emails : gset string)
    (user_departments : gmap string (option Z)) :
  NoDup (User.get_possible_matches self available_emails user_departments).
Proof.
  unfold User.get_possible_matches, User.possible_matches_from.
  rewrite sorted_perm. apply NoDup_filter, NoDup_elements.
Qed.

(** [get_possible_matches] returns exactly the eligible emails: those of
    the available set other than the user's own, absent from the user's
    history, whose department id differs from the user's. *)
Theorem possible_matches_are_the_eligible (self : User.t)
    (available_emails : gset string) (user_departments : gmap string (option Z))
    (x : string) :
  x ∈ User.get_possible_matches self available_emails user_departments ↔
  x ∈ available_emails ∧ x ≠ User.email self ∧
  (x ∉ User.historical_matches self) ∧
  dict_get user_departments x ≠ User.department_id self.
Proof. apply elem_of_get_possible_matches. Qed.

(** The list [get_possible_matches] returns is strictly ascending: sorted,
    and without repetition even when the history repeats an email. *)
Theorem possible_matches_strictly_ascending (self : User.t)
    (available_emails : gset string) (user_departments : gmap string (option Z)) :
  StronglySorted string_lt
    (User.get_possible_matches self available_emails user_departments).
Proof.
  apply strongly_sorted_strict; [apply sorted_strongly|].
  apply get_possible_matches_NoDup.
Qed.

(** ** The pairs of a run *)

Section pairs.
Context (d : gmap string (option Z)).

Lemma after_match_fst (st : Matcher.state) (u : User.t) (m : string) :
  map fst (Matcher._matches (after_match st u m))
  = map fst (Matcher._matches st) ++ [User.email u].
Proof. simpl. by rewrite map_app. Qed.

Lemma after_match_snd (st : Matcher.state) (u : User.t) (m : string) :
  map snd (Matcher._matches (after_match st u m))
  = map snd (Matcher._matches st) ++ [m].
Proof. simpl. by rewrite map_app. Qed.

Lemma pairs_inv_step (visited : list string) (st st' : Matcher.state)
    (u : User.t) :
  pairs_inv visited st → (User.email u ∉ visited) →
  Matcher.match_user d st u = Ok st' →
  pairs_inv (visited ++ [User.email u]) st'.
Proof.
  intros (Halr & Hfst & Hrem & Hnd) Hu Hstep.
  apply match_user_Ok in Hstep as [[_ ->]|(m & [Hni [tl Hg]] & ->)].
  - split_and!; try done. intros e He. apply elem_of_app. left. by apply Hfst.
  - assert (m ∈ User.get_possible_matches u (Matcher.remaining st) d) as Hm
      by (rewrite Hg; by left).
    apply elem_of_get_possible_matches in Hm as (Hm & Hne & _ & _).
    unfold pairs_inv. rewrite after_match_fst, after_match_snd.
    split_and!.
    + simpl. by rewrite Halr.
    + intros e [He|He%list_elem_of_singleton]%elem_of_app; apply elem_of_app;
        [left; by apply Hfst|right; subst e; by left].
    + intros e He. unfold after_match. cbn [Matcher.remaining].
      rewrite elem_of_difference, elem_of_list_to_set.
      intros [Hin Hout].
      apply elem_of_app in He as [He|He]; apply elem_of_app in He as [He|He].
      * apply (Hrem e); [apply elem_of_app; by left|done].
      * apply list_elem_of_singleton in He as ->. apply Hout. right. by left.
      * apply (Hrem e); [apply elem_of_app; by right|done].
      * apply list_elem_of_singleton in He as ->. apply Hout. by left.
    + assert ((map fst (Matcher._matches st) ++ [User.email u]) ++
              map snd (Matcher._matches st) ++ [m]
              ≡ₚ User.email u :: m ::
                 (map fst (Matcher._matches st) ++ map snd (Matcher._matches st)))
        as ->.
      { rewrite <- !app_assoc. rewrite <- !Permutation_middle. simpl.
        rewrite <- Permutation_middle. rewrite app_nil_r.
        apply perm_swap. }
      apply NoDup_cons. split; [|apply NoDup_cons; split; [|done]].
      * intros [?|Hin]%elem_of_cons; [done|].
        apply elem_of_app in Hin as [Hin|Hin]; [by apply Hu, Hfst|].
        apply Hni. by rewrite Halr.
      * intros Hin. by apply (Hrem m).
Qed.

Lemma pairs_inv_run (us : list User.t) :
  ∀ (visited : list string) (st st' : Matcher.state),
    NoDup (visited ++ map User.email us) → pairs_inv visited st →
    Matcher.match_users d st us = Ok st' →
    pairs_inv (visited ++ map User.email us) st'.
Proof.
  induction us as [|u us IH]; intros visited st st' Hnd Hinv; simpl in *.
  - intros [= <-]. by rewrite app_nil_r.
  - intros (st1 & Hstep & Hrest)%result_bind_Ok.
    rewrite (cons_middle (User.email u)), app_assoc in Hnd |- *.
    apply (IH _ st1); [done| |done].
    apply (pairs_inv_step _ st); [done| |done].
    apply NoDup_app in Hnd as (Hnd & _ & _).
    apply NoDup_app in Hnd as (_ & Hdisj & _).
    intros Hin. apply (Hdisj _ Hin). by left.
Qed.

(** The pairs and the matches taken only grow, and the pool only shrinks. *)
Lemma match_users_grows (us : list User.t) :
  ∀ st st' : Matcher.state,
    Matcher.match_users d st us = Ok st' →
    ∃ new, Matcher._matches st' = Matcher._matches st ++ new ∧
           Matcher.already_matched st'
           = Matcher.already_matched st ++ map snd new.
Proof.
  induction us as [|u us IH]; intros st st'; simpl.
  - intros [= <-]. exists []. by rewrite !app_nil_r.
  - intros (st1 & Hstep & Hrest)%result_bind_Ok.
    destruct (IH _ _ Hrest) as (new & Hm & Ha).
    apply match_user_Ok in Hstep as [[_ ->]|(m & _ & ->)]; [by exists new|].
    exists ((User.email u, m) :: new). simpl in *.
    by rewrite Hm, Ha, <- !app_assoc.
Qed.

(** A visited user is the requester of a pair or was taken as a match. *)
Lemma match_users_covers (us : list User.t) :
  ∀ (st st' : Matcher.state) (u : User.t),
    Matcher.match_users d st us = Ok st' → u ∈ us →
    User.email u ∈ map fst (Matcher._matches st') ∨
    User.email u ∈ Matcher.already_matched st'.
Proof.
  induction us as [|u0 us IH]; intros st st' u; simpl.
  - intros _ Hin. by apply not_elem_of_nil in Hin.
  - intros (st1 & Hstep & Hrest)%result_bind_Ok Hin.
    apply elem_of_cons in Hin as [->|Hin]; [|by apply (IH st1)].
    destruct (match_users_grows _ _ _ Hrest) as (new & Hm & Ha).
    apply match_user_Ok in Hstep as [[Hal ->]|(m & _ & ->)].
    + right. rewrite Ha. apply elem_of_app. by left.
    + left. rewrite Hm, map_app. apply elem_of_app. left.
      rewrite after_match_fst. apply elem_of_app. right. by left.
Qed.

(** The loop raises nothing but [IndexError]. *)
Lemma match_users_raises (us : list User.t) :
  ∀ (st : Matcher.state) (e : exn),
    Matcher.match_users d st us = Raise e → e = IndexError.
Proof.
  induction us as [|u us IH]; intros st e; simpl; [done|].
  destruct (Matcher.match_user d st u) as [st1|e1] eqn:Hstep; simpl.
  - apply IH.
  - intros [= <-]. unfold Matcher.match_user in Hstep.
    case_decide; [done|].
    destruct (User.get_possible_matches u (Matcher.remaining st) d); by simplify_eq.
Qed.
End pairs.

Lemma matches_of_members (es : list string) (h : gmap string (list string))
    (d : gmap string (option Z)) (pairs : list (string * string)) (r m : string) :
  Matcher.matches_of es h d = Ok pairs → (r, m) ∈ pairs →
  r ∈ es ∧ m ∈ es ∧ r ≠ m.
Proof.
  intros Hrun Hin.
  destruct (matches_of_origin _ _ _ _ _ _ Hrun Hin)
    as (pre & u & post & st & Hus & _ & [Hrem _] & <- & _ & tl & Hg).
  assert (m ∈ User.get_possible_matches u (Matcher.remaining st) d) as Hm
    by (rewrite Hg; by left).
  apply elem_of_get_possible_matches in Hm as (Hm & Hne & _ & _).
  assert (∀ e, e ∈ map User.email (u :: post) → e ∈ es) as Hsub.
  { intros e He. rewrite <- (email_users_of es h d), Hus, map_app.
    apply elem_of_app. by right. }
  split_and!; [apply Hsub; by left|by apply Hsub, Hrem|done].
Qed.

Lemma matches_of_covers (es : list string) (h : gmap string (list string))
    (d : gmap string (option Z)) (pairs : list (string * string)) (e : string) :
  Matcher.matches_of es h d = Ok pairs → e ∈ es →
  e ∈ map fst pairs ∨ e ∈ map snd pairs.
Proof.
  intros (st & Hrun & <-)%matches_of_Ok He.
  rewrite <- (email_users_of es h d), list_elem_of_In, in_map_iff in He.
  destruct He as (u & <- & Hu%list_elem_of_In).
  destruct (match_users_grows d _ _ _ Hrun) as (new & Hm & Ha).
  simpl in Hm, Ha. subst new.
  destruct (match_users_covers d _ _ _ u Hrun Hu) as [?|Hal]; [by left|right].
  by rewrite Ha in Hal.
Qed.

Lemma matches_of_NoDup (es : list string) (h : gmap string (list string))
    (d : gmap string (option Z)) (pairs : list (string * string)) :
  NoDup es → Matcher.matches_of es h d = Ok pairs →
  NoDup (map fst pairs ++ map snd pairs).
Proof.
  intros Hnd (st & Hrun & <-)%matches_of_Ok.
  apply (pairs_inv_run d _ [] (Matcher.initial es)) in Hrun as (_ & _ & _ & ?);
    [done|by rewrite email_users_of|].
  split_and!; simpl; try done; [|constructor].
  intros e He. by apply not_elem_of_nil in He.
Qed.

Lemma matches_of_perfect (es : list string) (h : gmap string (list string))
    (d : gmap string (option Z)) (pairs : list (string * string)) :
  NoDup es → Matcher.matches_of es h d = Ok pairs →
  map fst pairs ++ map snd pairs ≡ₚ es.
Proof.
  intros Hnd Hrun. apply NoDup_Permutation; [by eapply matches_of_NoDup|done|].
  intros e. split.
  - intros [He|He]%elem_of_app; rewrite list_elem_of_In, in_map_iff in He;
      destruct He as ([r m] & <- & Hp%list_elem_of_In);
      destruct (matches_of_members _ _ _ _ _ _ Hrun Hp) as (? & ? & _); done.
  - intros He. apply elem_of_app. by eapply matches_of_covers.
Qed.

Lemma length_flattened (pairs : list (string * string)) :
  length (map fst pairs ++ map snd pairs) = 2 * length pairs.
Proof. rewrite length_app, !length_map. lia. Qed.

(** A successful run leaves nobody out, whatever the departments and the
    history: every available email is the requester or the match of a
    pair. *)
Theorem successful_run_pairs_everyone (available_emails : list string)
    (h : gmap string (list string)) (d : gmap string (option Z))
    (pairs : list (string * string)) (e : string) :
  Matcher.matches_of available_emails h d = Ok pairs → e ∈ available_emails →
  e ∈ map fst pairs ∨ e ∈ map snd pairs.
Proof. apply matches_of_covers. Qed.

Lemma successful_run_pairs_everyone_witness :
  "d@x.com" ∈ map fst [("a@x.com", "c@x.com"); ("b@x.com", "d@x.com")] ∨
  "d@x.com" ∈ map snd [("a@x.com", "c@x.com"); ("b@x.com", "d@x.com")].
Proof.
  apply (successful_run_pairs_everyone
           (Matcher.available_emails_of scenario_c_requests)
           scenario_c_history scenario_c_departments).
  - vm_compute. reflexivity.
  - compute_done.
Defined.

(** For distinct available emails a successful run is a perfect matching,
    whatever the departments and the history: the requesters and the
    matches together are the available emails, each exactly once, so the
    number of emails is twice the number of pairs. *)
Theorem successful_run_is_perfect_matching (available_emails : list string)
    (h : gmap string (list string)) (d : gmap string (option Z))
    (pairs : list (string * string)) :
  NoDup available_emails →
  Matcher.matches_of available_emails h d = Ok pairs →
  map fst pairs ++ map snd pairs ≡ₚ available_emails ∧
  NoDup (map fst pairs ++ map snd pairs) ∧
  length available_emails = 2 * length pairs.
Proof.
  intros Hnd Hrun. split_and!.
  - by eapply matches_of_perfect.
  - by eapply matches_of_NoDup.
  - rewrite <- length_flattened. symmetry.
    apply Permutation_length. by eapply matches_of_perfect.
Qed.

Lemma successful_run_is_perfect_matching_witness :
  map fst [("a@x.com", "c@x.com"); ("b@x.com", "d@x.com")] ++
  map snd [("a@x.com", "c@x.com"); ("b@x.com", "d@x.com")]
    ≡ₚ Matcher.available_emails_of scenario_c_requests ∧
  NoDup (map fst [("a@x.com", "c@x.com"); ("b@x.com", "d@x.com")] ++
         map snd [("a@x.com", "c@x.com"); ("b@x.com", "d@x.com")]) ∧
  length (Matcher.available_emails_of scenario_c_requests) = 2 * 2.
Proof.
  apply (successful_run_is_perfect_matching
           (Matcher.available_emails_of scenario_c_requests)
           scenario_c_history scenario_c_departments
           [("a@x.com", "c@x.com"); ("b@x.com", "d@x.com")]).
  - compute_done.
  - vm_compute. reflexivity.
Defined.

(** An odd number of distinct available emails always makes the run raise
    [IndexError], whatever the departments and the history. *)
Theorem odd_pool_always_raises (available_emails : list string)
    (h : gmap string (list string)) (d : gmap string (option Z)) :
  NoDup available_emails → Nat.odd (length available_emails) = true →
  Matcher.matches_of available_emails h d = Raise IndexError.
Proof.
  intros Hnd Hodd.
  destruct (Matcher.matches_of available_emails h d) as [pairs|e] eqn:Hrun.
  - exfalso.
    pose proof (matches_of_perfect _ _ _ _ Hnd Hrun) as Hp.
    apply Permutation_length in Hp. rewrite length_flattened in Hp.
    rewrite <- Hp, Nat.odd_mul in Hodd. done.
  - f_equal. unfold Matcher.matches_of in Hrun.
    destruct (Matcher.match_users d (Matcher.initial available_emails)
                (Matcher.users_of available_emails h d)) as [st|e'] eqn:Hloop;
      [done|].
    simpl in Hrun. simplify_eq. by eapply match_users_raises.
Qed.

Lemma odd_pool_always_raises_witness :
  Matcher.matches_of ["a@x.com"; "b@x.com"; "c@x.com"]
    scenario_c_history ∅ = Raise IndexError.
Proof.
  apply (odd_pool_always_raises ["a@x.com"; "b@x.com"; "c@x.com"]).
  - compute_done.
  - reflexivity.
Defined.

(** Both members of a pair come from the available emails, and nobody is
    paired with themselves. *)
Theorem pairs_are_among_available (available_emails : list string)
    (h : gmap string (list string)) (d : gmap string (option Z))
    (pairs : list (string * string)) (r m : string) :
  Matcher.matches_of available_emails h d = Ok pairs → (r, m) ∈ pairs →
  r ∈ available_emails ∧ m ∈ available_emails ∧ r ≠ m.
Proof. apply matches_of_members. Qed.

Lemma pairs_are_among_available_witness :
  "b@x.com" ∈ Matcher.available_emails_of scenario_c_requests ∧
  "d@x.com" ∈ Matcher.available_emails_of scenario_c_requests ∧
  "b@x.com" ≠ "d@x.com".
Proof.
  apply (pairs_are_among_available
           (Matcher.available_emails_of scenario_c_requests)
           scenario_c_history scenario_c_departments
           [("a@x.com", "c@x.com"); ("b@x.com", "d@x.com")]).
  - vm_compute. reflexivity.
  - apply list_elem_of_further, list_elem_of_here.
Defined.

(** ** Lower case and substrings *)

Lemma lower_ascii_idemp (c : ascii) : lower_ascii (lower_ascii c) = lower_ascii c.
Proof. destruct c as [[] [] [] [] [] [] [] []]; reflexivity. Qed.

Lemma lower_idemp (s : string) : lower (lower s) = lower s.
Proof.
  induction s as [|c s IH]; simpl; [done|]. by rewrite lower_ascii_idemp, IH.
Qed.

Lemma string_app_cons (c : ascii) (s1 s2 : string) :
  String c s1 +:+ s2 = String c (s1 +:+ s2).
Proof. reflexivity. Qed.

Lemma string_app_assoc (s1 s2 s3 : string) :
  (s1 +:+ s2) +:+ s3 = s1 +:+ s2 +:+ s3.
Proof.
  induction s1 as [|c s1 IH]; [done|]. by rewrite !string_app_cons, IH.
Qed.

Lemma prefix_nil (s : string) : String.prefix "" s = true.
Proof. by destruct s. Qed.

Lemma prefix_cons (a b : ascii) (p s : string) :
  String.prefix (String a p) (String b s)
  = if ascii_dec a b then String.prefix p s else false.
Proof. reflexivity. Qed.

Lemma prefix_spec (p s : string) :
  String.prefix p s = true ↔ ∃ post, s = p +:+ post.
Proof.
  revert s. induction p as [|a p IH]; intros s.
  - rewrite prefix_nil. split; [|done]. intros _. by exists s.
  - destruct s as [|b s].
    + split; [done|]. by intros [post ?].
    + rewrite prefix_cons. destruct (ascii_dec a b) as [->|Hne].
      * rewrite IH. split; intros [post Hp]; exists post.
        -- by rewrite string_app_cons, Hp.
        -- rewrite string_app_cons in Hp. by simplify_eq.
      * split; [done|]. intros [post Hp].
        rewrite string_app_cons in Hp. by simplify_eq.
Qed.

Lemma contains_cons (sub : string) (c : ascii) (s : string) :
  contains sub (String c s) = String.prefix sub (String c s) || contains sub s.
Proof. reflexivity. Qed.

Lemma contains_spec (sub s : string) :
  contains sub s = true ↔ ∃ pre post, s = pre +:+ sub +:+ post.
Proof.
  induction s as [|c s IH].
  - change (contains sub "") with (String.prefix sub "" || false).
    rewrite orb_false_r, prefix_spec. split.
    + intros [post Hp]. by exists "", post.
    + intros (pre & post & Hp). destruct pre; [|done]. by exists post.
  - rewrite contains_cons, orb_true_iff, prefix_spec, IH. split.
    + intros [[post Hp]|(pre & post & Hp)].
      * by exists "", post.
      * exists (String c pre), post. by rewrite string_app_cons, Hp.
    + intros (pre & post & Hp). destruct pre as [|c' pre].
      * left. by exists post.
      * right. exists pre, post. rewrite string_app_cons in Hp. by simplify_eq.
Qed.

(** ** The opt-in list *)

(** A row opts in exactly when its answer, in lower case, has [yes]
    somewhere in it. *)
Theorem opted_in_iff (row : Matcher.request) :
  Matcher.opted_in row = true ↔
  ∃ pre post, lower (Matcher.match_me_up row) = pre +:+ "yes" +:+ post.
Proof. apply contains_spec. Qed.

(** [available_emails] is in ascending order and holds the email of every
    row that opted in, spelled as in the file and as often as it occurs
    there. *)
Theorem available_emails_sorted_opt_ins (self : Matcher.t) :
  StronglySorted String.le (Matcher.available_emails self) ∧
  Matcher.available_emails self
    ≡ₚ map Matcher.email_address
         (filter (fun row => Matcher.opted_in row = true)
                 (Matcher.requests_file self)).
Proof. split; [apply sorted_strongly|apply sorted_perm]. Qed.

(** ** The department map *)

Lemma departments_from_app (l1 l2 : list (string * option Z)) :
  ∀ d, Matcher.departments_from d (l1 ++ l2)
       = Matcher.departments_from (Matcher.departments_from d l1) l2.
Proof.
  induction l1 as [|[e v] l1 IH]; intros d; simpl; [done|].
  case_decide; apply IH.
Qed.

Lemma departments_from_lookup (l : list (string * option Z)) :
  ∀ d k v, Matcher.departments_from d l !! k = Some v →
           d !! k = Some v ∨ ∃ e, (e, v) ∈ l ∧ lower e = k ∧ k ≠ "".
Proof.
  induction l as [|[e v0] l IH]; intros d k v; simpl; [by left|].
  case_decide as Hempty; intros Hl; apply IH in Hl.
  - destruct Hl as [?|(e' & ? & ? & ?)]; [by left|right].
    exists e'. split_and!; [by right|done..].
  - destruct Hl as [Hl|(e' & ? & ? & ?)].
    + rewrite lookup_insert in Hl. case_decide as Hk.
      * right. exists e. simplify_eq. split_and!; [by left|done..].
      * by left.
    + right. exists e'. split_and!; [by right|done..].
Qed.

Lemma departments_from_other (l : list (string * option Z)) (k : string) :
  (∀ e v, (e, v) ∈ l → lower e ≠ k) →
  ∀ d, Matcher.departments_from d l !! k = d !! k.
Proof.
  induction l as [|[e v0] l IH]; intros Hl d; simpl; [done|].
  assert (∀ e' v, (e', v) ∈ l → lower e' ≠ k) as Hl'
    by (intros e' v ?; apply (Hl e' v); by right).
  case_decide; rewrite IH by done; [done|].
  apply lookup_insert_ne. apply (Hl e v0). by left.
Qed.

(** Every key of [user_departments] is a non-empty lower-case email, and
    its value is the department of a record of the roster with that email
    up to letter case. *)
Theorem department_keys_are_lower_case (self : Matcher.t) (k : string)
    (v : option Z) :
  Matcher.user_departments self !! k = Some v →
  lower k = k ∧ k ≠ "" ∧
  ∃ e, (e, v) ∈ Matcher.employees_file self ∧ lower e = k.
Proof.
  intros Hl. apply departments_from_lookup in Hl as [Hl|(e & He & <- & Hne)].
  - by rewrite lookup_empty in Hl.
  - split_and!; [apply lower_idemp|done|by exists e].
Qed.

Lemma department_keys_are_lower_case_witness :
  lower "bob@chownow.com" = "bob@chownow.com" ∧ "bob@chownow.com" ≠ "" ∧
  ∃ e, (e, Some 2%Z) ∈ Matcher.employees_file mixed_case_files ∧
       lower e = "bob@chownow.com".
Proof.
  apply (department_keys_are_lower_case mixed_case_files).
  vm_compute. reflexivity.
Defined.

(** An email with an upper-case letter is never found in the department
    map: [user_departments.get] returns [None] for it, whatever the
    roster. *)
Theorem mixed_case_email_has_no_department (self : Matcher.t) (k : string) :
  lower k ≠ k → dict_get (Matcher.user_departments self) k = None.
Proof.
  intros Hk. unfold dict_get.
  destruct (Matcher.user_departments self !! k) as [v|] eqn:Hl; [|done].
  apply departments_from_lookup in Hl as [Hl|(e & _ & <- & _)].
  - by rewrite lookup_empty in Hl.
  - destruct Hk. apply lower_idemp.
Qed.

Lemma mixed_case_email_has_no_department_witness :
  dict_get (Matcher.user_departments mixed_case_files) "Bob@chownow.com" = None.
Proof.
  apply (mixed_case_email_has_no_department mixed_case_files "Bob@chownow.com").
  vm_compute. discriminate.
Defined.

(** When several records of the roster have the same email up to letter
    case, the last one gives the department. *)
Theorem last_department_record_wins (self : Matcher.t)
    (l1 l2 : list (string * option Z)) (e : string) (v : option Z) :
  Matcher.employees_file self = l1 ++ (e, v) :: l2 →
  lower e ≠ "" →
  (∀ e' v', (e', v') ∈ l2 → lower e' ≠ lower e) →
  Matcher.user_departments self !! lower e = Some v.
Proof.
  intros Hfile Hne Hl2. unfold Matcher.user_departments.
  rewrite Hfile, departments_from_app. simpl.
  rewrite decide_False by done.
  rewrite departments_from_other by done. apply lookup_insert_eq.
Qed.

Lemma last_department_record_wins_witness :
  Matcher.user_departments
    (Matcher.New [] [("Ann@chownow.com", Some 1%Z); ("ann@chownow.com", Some 7%Z);
                     ("bob@chownow.com", None)] [])
    !! lower "ann@chownow.com" = Some (Some 7%Z).
Proof.
  apply (last_department_record_wins _ [("Ann@chownow.com", Some 1%Z)]
           [("bob@chownow.com", None)]).
  - reflexivity.
  - vm_compute. discriminate.
  - intros e' v' He'. apply list_elem_of_singleton in He'. simplify_eq.
    vm_compute. discriminate.
Defined.

(** ** The history map *)

Lemma history_row_Ok (locs : list nat) (d d' : gmap string (list string))
    (row : list Matcher.cell) :
  Matcher.history_row locs d row = Ok d' →
  (row = [] ∧ d' = d) ∨
  ∃ a b, d' = Matcher.add_link d (lower a) (lower b).
Proof.
  unfold Matcher.history_row. destruct row as [|item row]; [intros [= <-]; by left|].
  intros (loc1 & _ & H1)%result_bind_Ok.
  apply result_bind_Ok in H1 as (item1 & _ & H1).
  apply result_bind_Ok in H1 as (k1 & Hk1 & H1).
  apply result_bind_Ok in H1 as (loc2 & _ & H1).
  apply result_bind_Ok in H1 as (item2 & _ & H1).
  apply result_bind_Ok in H1 as (k2 & Hk2 & H1).
  destruct item1 as [a|]; [|done]. destruct item2 as [b|]; [|done].
  simpl in Hk1, Hk2. simplify_eq. right. by exists a, b.
Qed.

Lemma result_bind_Ok_l {A B} (f : A → result B) (a : A) : Ok a ≫= f = f a.
Proof. reflexivity. Qed.

Lemma index_Some {A} (l : list A) (i : nat) (x : A) :
  l !! i = Some x → index l i = Ok x.
Proof. unfold index. by intros ->. Qed.

Lemma history_row_link (l0 l1 : nat) (more : list nat)
    (d : gmap string (list string)) (row : list Matcher.cell) (a b : string) :
  row !! l0 = Some (Matcher.Text a) → row !! l1 = Some (Matcher.Text b) →
  Matcher.history_row (l0 :: l1 :: more) d row
  = Ok (Matcher.add_link d (lower a) (lower b)).
Proof.
  intros Ha Hb. unfold Matcher.history_row.
  destruct row as [|item row]; [by rewrite lookup_nil in Ha|].
  rewrite (index_Some _ 0 l0) by done. rewrite result_bind_Ok_l.
  rewrite (index_Some _ _ _ Ha), result_bind_Ok_l.
  change (Matcher.cell_lower (Matcher.Text a)) with (Ok (lower a)).
  rewrite result_bind_Ok_l.
  rewrite (index_Some _ 1 l1) by done. rewrite result_bind_Ok_l.
  rewrite (index_Some _ _ _ Hb), result_bind_Ok_l.
  change (Matcher.cell_lower (Matcher.Text b)) with (Ok (lower b)).
  by rewrite result_bind_Ok_l.
Qed.

Lemma history_rows_links (l0 l1 : nat) (more : list nat)
    (rows : list (list Matcher.cell)) (pairs : list (string * string)) :
  sheet_links l0 l1 rows pairs →
  ∀ d, Matcher.history_rows (l0 :: l1 :: more) d rows
       = Ok (record_lowered d pairs).
Proof.
  induction 1 as [|rows pairs _ IH|row rows a b pairs Ha Hb _ IH]; intros d.
  - done.
  - simpl. apply IH.
  - change (Matcher.history_rows (l0 :: l1 :: more) d (row :: rows))
      with (Matcher.history_row (l0 :: l1 :: more) d row ≫=
            fun d' => Matcher.history_rows (l0 :: l1 :: more) d' rows).
    rewrite (history_row_link _ _ _ _ _ a b) by done.
    rewrite result_bind_Ok_l. apply IH.
Qed.

(** A sheet whose row of index 1 has at least two email-shaped cells, and
    whose non-empty rows from index 1 on have text in the first two of
    these columns, adds one link per such row, from the first column to the
    second, both in lower case and in the order of the rows; its row of
    index 0 and its other columns are not read. *)
Theorem sheet_gives_its_links (d : gmap string (list string))
    (data : list (list Matcher.cell)) (row1 : list Matcher.cell)
    (l0 l1 : nat) (more : list nat) (pairs : list (string * string)) :
  data !! 1 = Some row1 →
  Matcher.email_locations_from 0 row1 = l0 :: l1 :: more →
  sheet_links l0 l1 (drop 1 data) pairs →
  Matcher.history_tab d data = Ok (record_lowered d pairs).
Proof.
  intros Hrow1 Hlocs Hlinks. unfold Matcher.history_tab, index.
  rewrite Hrow1. simpl. rewrite Hlocs. by apply history_rows_links.
Qed.

Lemma sheet_gives_its_links_witness :
  Matcher.history_tab ∅
    [[Matcher.Text "When"; Matcher.Text "Email 1"; Matcher.Text "Email 2"];
     [Matcher.NonText "2019-03-01"; Matcher.Text "Bob@chownow.com";
      Matcher.Text "alice@chownow.com"];
     [];
     [Matcher.NonText "2019-03-01"; Matcher.Text "Bob@chownow.com";
      Matcher.Text "Carol@ChowNow.com"; Matcher.Text "a note"]]
  = Ok (record_lowered ∅ [("Bob@chownow.com", "alice@chownow.com");
                          ("Bob@chownow.com", "Carol@ChowNow.com")]).
Proof.
  apply (sheet_gives_its_links ∅ _
           [Matcher.NonText "2019-03-01"; Matcher.Text "Bob@chownow.com";
            Matcher.Text "alice@chownow.com"] 1 2 []).
  - reflexivity.
  - vm_compute. reflexivity.
  - simpl. apply sheet_links_row; [reflexivity..|].
    apply sheet_links_empty.
    apply sheet_links_row; [reflexivity..|]. apply sheet_links_nil.
Defined.

Lemma add_link_lowered (d : gmap string (list string)) (a b : string) :
  lowered d → lowered (Matcher.add_link d (lower a) (lower b)).
Proof.
  intros Hd k l. unfold Matcher.add_link. rewrite lookup_insert.
  case_decide as Hk; [|apply Hd].
  intros [= <-]. subst k. split; [apply lower_idemp|].
  intros x [Hx|Hx%list_elem_of_singleton]%elem_of_app.
  - unfold dict_get_list in Hx.
    destruct (d !! lower a) as [l|] eqn:Hl; simpl in Hx.
    + by apply (Hd _ _ Hl).
    + by apply not_elem_of_nil in Hx.
  - subst x. apply lower_idemp.
Qed.

Lemma history_rows_lowered (locs : list nat) (rows : list (list Matcher.cell)) :
  ∀ d d', lowered d → Matcher.history_rows locs d rows = Ok d' → lowered d'.
Proof.
  induction rows as [|row rows IH]; intros d d' Hd; simpl.
  - by intros [= <-].
  - intros (d1 & Hrow & Hrest)%result_bind_Ok. apply (IH d1); [|done].
    apply history_row_Ok in Hrow as [[_ ->]|(a & b & ->)]; [done|].
    by apply add_link_lowered.
Qed.

Lemma history_tabs_lowered (tabs : list (string * list (list Matcher.cell))) :
  ∀ d d', lowered d → Matcher.history_tabs d tabs = Ok d' → lowered d'.
Proof.
  induction tabs as [|[tab data] tabs IH]; intros d d' Hd; simpl.
  - by intros [= <-].
  - intros (d1 & Htab & Hrest)%result_bind_Ok. apply (IH d1); [|done].
    unfold Matcher.history_tab in Htab.
    apply result_bind_Ok in Htab as (row1 & _ & Hrows).
    by eapply history_rows_lowered.
Qed.

(** Every key of [historical_matches] and every partner listed under it
    is in lower case. *)
Theorem history_is_lower_case (self : Matcher.t)
    (h : gmap string (list string)) (k : string) (l : list string) :
  Matcher.historical_matches self = Ok h → h !! k = Some l →
  lower k = k ∧ ∀ x, x ∈ l → lower x = x.
Proof.
  intros Hh. apply (history_tabs_lowered (Matcher.matches_file self) ∅ h); [|done].
  intros k' l' Hl. by rewrite lookup_empty in Hl.
Qed.

Lemma history_is_lower_case_witness :
  lower "bob@chownow.com" = "bob@chownow.com" ∧
  ∀ x, x ∈ ["alice@chownow.com"] → lower x = x.
Proof.
  apply (history_is_lower_case mixed_case_files
           {[ "bob@chownow.com" := ["alice@chownow.com"] ]}).
  - vm_compute. reflexivity.
  - vm_compute. reflexivity.
Defined.

Lemma history_rows_extends (locs : list nat) (rows : list (list Matcher.cell))
    (k : string) :
  ∀ d d', Matcher.history_rows locs d rows = Ok d' →
          ∃ more, dict_get_list d' k = dict_get_list d k ++ more.
Proof.
  induction rows as [|row rows IH]; intros d d'; simpl.
  - intros [= <-]. exists []. by rewrite app_nil_r.
  - intros (d1 & Hrow & Hrest)%result_bind_Ok.
    destruct (IH _ _ Hrest) as [more ->].
    apply history_row_Ok in Hrow as [[_ ->]|(a & b & ->)]; [by exists more|].
    rewrite dict_get_list_add_link. case_decide as Hk; [|by exists more].
    subst k. exists ([lower b] ++ more). by rewrite app_assoc.
Qed.

Lemma history_tabs_extends (tabs : list (string * list (list Matcher.cell)))
    (k : string) :
  ∀ d d', Matcher.history_tabs d tabs = Ok d' →
          ∃ more, dict_get_list d' k = dict_get_list d k ++ more.
Proof.
  induction tabs as [|[tab data] tabs IH]; intros d d'; simpl.
  - intros [= <-]. exists []. by rewrite app_nil_r.
  - intros (d1 & Htab & Hrest)%result_bind_Ok.
    destruct (IH _ _ Hrest) as [more ->].
    unfold Matcher.history_tab in Htab.
    apply result_bind_Ok in Htab as (row1 & _ & Hrows).
    destruct (history_rows_extends _ _ k _ _ Hrows) as [more' ->].
    exists (more' ++ more). by rewrite app_assoc.
Qed.

(** Links are only added, at the end: the partners an email has after the
    first sheets of the file are a prefix of its partners after all the
    sheets. *)
Theorem later_sheets_append_links (self : Matcher.t)
    (t1 t2 : list (string * list (list Matcher.cell)))
    (d1 h : gmap string (list string)) (k : string) :
  Matcher.matches_file self = t1 ++ t2 →
  Matcher.history_tabs ∅ t1 = Ok d1 →
  Matcher.historical_matches self = Ok h →
  ∃ more, dict_get_list h k = dict_get_list d1 k ++ more.
Proof.
  intros Hfile H1 Hh. unfold Matcher.historical_matches in Hh.
  rewrite Hfile, history_tabs_app, H1 in Hh. simpl in Hh.
  by eapply history_tabs_extends.
Qed.

(** A sheet with fewer than two rows makes [historical_matches] raise,
    whatever the other sheets are. *)
Theorem short_sheet_raises (self : Matcher.t)
    (t1 t2 : list (string * list (list Matcher.cell))) (tab : string)
    (data : list (list Matcher.cell)) :
  Matcher.matches_file self = t1 ++ (tab, data) :: t2 →
  length data < 2 →
  ∃ e, Matcher.historical_matches self = Raise e.
Proof.
  intros Hfile Hlen. unfold Matcher.historical_matches.
  rewrite Hfile, history_tabs_app.
  destruct (Matcher.history_tabs ∅ t1) as [d|e]; simpl; [|by eexists].
  unfold Matcher.history_tab, index.
  rewrite (lookup_ge_None_2 data 1) by lia. simpl. by eexists.
Qed.

Lemma short_sheet_raises_witness :
  ∃ e, Matcher.historical_matches
         (Matcher.New [] []
            [("March", [[Matcher.Text "Email 1"; Matcher.Text "Email 2"]])])
       = Raise e.
Proof.
  apply (short_sheet_raises _ [] [] "March"
           [[Matcher.Text "Email 1"; Matcher.Text "Email 2"]]).
  - reflexivity.
  - simpl. lia.
Defined.

Lemma later_sheets_append_links_witness :
  ∃ more,
    dict_get_list {[ "bob@chownow.com" := ["alice@chownow.com"; "carol@chownow.com"] ]}
      "bob@chownow.com"
    = dict_get_list {[ "bob@chownow.com" := ["alice@chownow.com"] ]}
        "bob@chownow.com" ++ more.
Proof.
  apply (later_sheets_append_links
           (Matcher.New [] []
              [("March", [[Matcher.Text "Email 1"; Matcher.Text "Email 2"];
                          [Matcher.Text "bob@chownow.com";
                           Matcher.Text "alice@chownow.com"]]);
               ("April", [[Matcher.Text "Email 1"; Matcher.Text "Email 2"];
                          [Matcher.Text "bob@chownow.com";
                           Matcher.Text "carol@chownow.com"]])])
           [("March", [[Matcher.Text "Email 1"; Matcher.Text "Email 2"];
                       [Matcher.Text "bob@chownow.com";
                        Matcher.Text "alice@chownow.com"]])]
           [("April", [[Matcher.Text "Email 1"; Matcher.Text "Email 2"];
                       [Matcher.Text "bob@chownow.com";
                        Matcher.Text "carol@chownow.com"]])]).
  - reflexivity.
  - vm_compute. reflexivity.
  - vm_compute. reflexivity.
Defined.

(** ** The email pattern *)

Lemma skip_local_app (local t : string) :
  all_local local = true →
  Matcher.skip_local (local +:+ t) = Matcher.skip_local t.
Proof.
  induction local as [|c local IH]; [done|].
  simpl all_local. intros [Hc Hl]%andb_true_iff.
  rewrite string_app_cons. simpl Matcher.skip_local. rewrite Hc. by apply IH.
Qed.

Lemma skip_local_split (s : string) :
  ∃ local, all_local local = true ∧ s = local +:+ Matcher.skip_local s.
Proof.
  induction s as [|c s (local & Hl & Hs)]; [by exists ""|].
  simpl Matcher.skip_local. destruct (Matcher.is_local c) eqn:Hc.
  - exists (String c local). split; [simpl; by rewrite Hc|].
    by rewrite string_app_cons, <- Hs.
  - by exists "".
Qed.

Lemma strip_prefix_spec (p s r : string) :
  Matcher.strip_prefix p s = Some r ↔ s = p +:+ r.
Proof.
  revert s. induction p as [|a p IH]; intros s.
  - change ("" +:+ r) with r. destruct s; simpl; split; intros; by simplify_eq.
  - rewrite string_app_cons. destruct s as [|b s]; simpl; [done|].
    destruct (Ascii.eqb a b) eqn:Hab.
    + apply Ascii.eqb_eq in Hab as ->. rewrite IH.
      split; intros; by simplify_eq.
    + apply Ascii.eqb_neq in Hab. split; [done|]. intros. by simplify_eq.
Qed.

(** [email_search.match] accepts exactly the strings that begin with
    letters, digits, underscores and dots (possibly none), followed by
    [@chownow], one character other than a newline, and [com]; anything
    may follow. *)
Theorem email_search_match_iff (s : string) :
  Matcher.email_search_match s = true ↔
  ∃ local c rest,
    all_local local = true ∧ nat_of_ascii c ≠ 10 ∧
    s = local +:+ "@chownow" +:+ String c ("com" +:+ rest).
Proof.
  unfold Matcher.email_search_match. split.
  - destruct (Matcher.strip_prefix "@chownow" (Matcher.skip_local s))
      as [[|c r]|] eqn:Hs; [done| |done].
    intros [Hc [rest ->]%prefix_spec]%andb_true_iff.
    apply strip_prefix_spec in Hs.
    destruct (skip_local_split s) as (local & Hl & Hsplit).
    exists local, c, rest. split_and!; [done| |by rewrite <- Hs].
    by apply negb_true_iff, Nat.eqb_neq in Hc.
  - intros (local & c & rest & Hl & Hc & ->).
    rewrite skip_local_app by done.
    change (Matcher.skip_local ("@chownow" +:+ String c ("com" +:+ rest)))
      with ("@chownow" +:+ String c ("com" +:+ rest)).
    rewrite (proj2 (strip_prefix_spec "@chownow" _ (String c ("com" +:+ rest))))
      by done.
    apply andb_true_iff. split.
    + by apply negb_true_iff, Nat.eqb_neq.
    + apply prefix_spec. by exists rest.
Qed.

(** ** The run as a whole *)

Lemma available_emails_nil (self : Matcher.t) :
  Forall (fun row => Matcher.opted_in row = false) (Matcher.requests_file self) →
  Matcher.available_emails self = [].
Proof.
  unfold Matcher.available_emails, Matcher.available_emails_of.
  intros Hall.
  assert (filter (fun row => Matcher.opted_in row = true)
                 (Matcher.requests_file self) = []) as ->; [|done].
  induction Hall as [|row rows Hrow _ IH]; [done|].
  rewrite filter_cons, decide_False; [done|]. by rewrite Hrow.
Qed.

Lemma available_emails_not_nil (self : Matcher.t) (row : Matcher.request) :
  row ∈ Matcher.requests_file self → Matcher.opted_in row = true →
  Matcher.available_emails self ≠ [].
Proof.
  intros Hin Hrow Hnil.
  apply sorted_nil_inv, map_eq_nil in Hnil.
  assert (row ∈ filter (fun row => Matcher.opted_in row = true)
                       (Matcher.requests_file self)) as Hf
    by by apply list_elem_of_filter.
  rewrite Hnil in Hf. by apply not_elem_of_nil in Hf.
Qed.

(** [export_matches] changes no file but its own.  Whatever that file held
    before, it holds afterwards the header and one row per pair, in the
    order of the pairs, when [matches] is a non-empty list, and nothing at
    all otherwise; the call returns normally exactly in the first case. *)
Theorem export_matches_writes_one_file (self : Matcher.t) (date : string)
    (files : gmap string (list (list string))) :
  (∀ name, name ≠ Matcher.csv_file_name date →
           (Matcher.export_matches self date files).1 !! name = files !! name) ∧
  (Matcher.export_matches self date files).1 !! Matcher.csv_file_name date
  = Some (match Matcher.matches self with
          | Ok (m :: ms) =>
              ["Email Address"; "Meet your Match"]
              :: map (fun p => [p.1; p.2]) (m :: ms)
          | _ => []
          end) ∧
  ((Matcher.export_matches self date files).2 = Ok tt ↔
   ∃ m ms, Matcher.matches self = Ok (m :: ms)).
Proof.
  unfold Matcher.export_matches.
  destruct (Matcher.matches self) as [[|m ms]|e]; simpl; split_and!.
  - intros name Hne. by rewrite lookup_insert_ne.
  - by rewrite lookup_insert_eq.
  - split; [done|]. by intros (m & ms & ?).
  - intros name Hne. by rewrite !lookup_insert_ne.
  - by rewrite lookup_insert_eq.
  - split; [by exists m, ms|done].
  - intros name Hne. by rewrite lookup_insert_ne.
  - by rewrite lookup_insert_eq.
  - split; [done|]. by intros (m & ms & ?).
Qed.

(** When no row opts in, [matches] is the empty list and the history file
    is not read, so that its defects go unnoticed; [export_matches] then
    creates an empty output file and raises [IndexError]. *)
Theorem nobody_opted_in (self : Matcher.t) (date : string)
    (files : gmap string (list (list string))) :
  Forall (fun row => Matcher.opted_in row = false) (Matcher.requests_file self) →
  Matcher.matches self = Ok [] ∧
  Matcher.export_matches self date files
  = (<[Matcher.csv_file_name date := []]> files, Raise IndexError).
Proof.
  intros Hall%available_emails_nil.
  assert (Matcher.matches self = Ok []) as Hm
    by by rewrite matches_matches_of, Hall.
  split; [done|]. unfold Matcher.export_matches. by rewrite Hm.
Qed.

Lemma nobody_opted_in_witness :
  Matcher.matches
    (Matcher.New [Matcher.Request "No thanks" "a@x.com"] []
                 [("March", [])]) = Ok [] ∧
  Matcher.export_matches
    (Matcher.New [Matcher.Request "No thanks" "a@x.com"] []
                 [("March", [])]) "20190301" ∅
  = (<[Matcher.csv_file_name "20190301" := []]> ∅, Raise IndexError).
Proof.
  apply (nobody_opted_in
           (Matcher.New [Matcher.Request "No thanks" "a@x.com"] []
                        [("March", [])])).
  repeat constructor.
Defined.

(** When somebody opted in and reading the history raises, [matches]
    raises the same exception and [export_matches] too, after it has
    created an empty output file. *)
Theorem history_error_aborts_run (self : Matcher.t) (row : Matcher.request)
    (e : exn) (date : string) (files : gmap string (list (list string))) :
  row ∈ Matcher.requests_file self → Matcher.opted_in row = true →
  Matcher.historical_matches self = Raise e →
  Matcher.matches self = Raise e ∧
  Matcher.export_matches self date files
  = (<[Matcher.csv_file_name date := []]> files, Raise e).
Proof.
  intros Hin Hrow Hh.
  pose proof (available_emails_not_nil self row Hin Hrow) as Hne.
  assert (Matcher.matches self = Raise e) as Hm.
  { rewrite matches_matches_of.
    destruct (Matcher.available_emails self); [done|]. by rewrite Hh. }
  split; [done|]. unfold Matcher.export_matches. by rewrite Hm.
Qed.

Lemma history_error_aborts_run_witness :
  Matcher.matches one_email_column = Raise IndexError ∧
  Matcher.export_matches one_email_column "20190301" ∅
  = (<[Matcher.csv_file_name "20190301" := []]> ∅, Raise IndexError).
Proof.
  apply (history_error_aborts_run one_email_column (yes "alice@chownow.com")).
  - apply list_elem_of_here.
  - vm_compute. reflexivity.
  - vm_compute. reflexivity.
Defined.

(** ** A second round in lower case *)

(** When every available email is in lower case, recording the pairs of a
    first round the way the loader records links, lower-cased and from
    requester to match, keeps a successful second round over the same
    participants from producing any of these pairs again, in either
    orientation. *)
Theorem lower_case_rounds_do_not_repeat (requests : list Matcher.request)
    (h1 h0 : gmap string (list string)) (d : gmap string (option Z))
    (pairs1 pairs2 : list (string * string)) (r m : string) :
  Forall (fun e => lower e = e) (Matcher.available_emails_of requests) →
  Matcher.matches_of (Matcher.available_emails_of requests) h1 d = Ok pairs1 →
  Matcher.matches_of (Matcher.available_emails_of requests)
    (record_lowered h0 pairs1) d = Ok pairs2 →
  (r, m) ∈ pairs1 →
  ((r, m) ∉ pairs2) ∧ ((m, r) ∉ pairs2).
Proof.
  intros Hlow Hrun1 Hrun2 Hin1. rewrite Forall_forall in Hlow.
  destruct (matches_of_members _ _ _ _ _ _ Hrun1 Hin1) as (Hr & Hm & _).
  split; intros Hin2.
  - apply (match_not_in_history _ _ _ _ _ _ Hrun2 Hin2).
    rewrite <- (Hlow r Hr), <- (Hlow m Hm) at 1.
    by apply record_lowered_contains.
  - pose proof (match_after_requester _ _ _ _ _ _ Hrun1 Hin1) as Hlt1.
    pose proof (match_after_requester _ _ _ _ _ _ Hrun2 Hin2) as Hlt2.
    rewrite String.compare_antisym, Hlt1 in Hlt2. done.
Qed.

Lemma lower_case_rounds_do_not_repeat_witness :
  Matcher.matches_of (Matcher.available_emails_of scenario_c_requests)
    (record_lowered ∅ [("a@x.com", "c@x.com"); ("b@x.com", "d@x.com")])
    scenario_c_departments
  = Ok [("a@x.com", "b@x.com"); ("c@x.com", "d@x.com")] ∧
  ((("a@x.com", "c@x.com") ∉ [("a@x.com", "b@x.com"); ("c@x.com", "d@x.com")]) ∧
   (("c@x.com", "a@x.com") ∉ [("a@x.com", "b@x.com"); ("c@x.com", "d@x.com")])).
Proof.
  assert (Matcher.matches_of (Matcher.available_emails_of scenario_c_requests)
            (record_lowered ∅ [("a@x.com", "c@x.com"); ("b@x.com", "d@x.com")])
            scenario_c_departments
          = Ok [("a@x.com", "b@x.com"); ("c@x.com", "d@x.com")]) as Hrun2
    by (vm_compute; reflexivity).
  split; [exact Hrun2|].
  apply (lower_case_rounds_do_not_repeat scenario_c_requests scenario_c_history ∅
           scenario_c_departments
           [("a@x.com", "c@x.com"); ("b@x.com", "d@x.com")]).
  - compute_done.
  - vm_compute. reflexivity.
  - exact Hrun2.
  - apply list_elem_of_here.
Defined.
